(** * scoreWDL: fitting the win-draw-loss model to game statistics

    A shallow embedding of [scoreWDL.py].  The script is one forward pass:

    - the aggregation loop (source lines 43-58) folds the input dictionary
      into three [Counter]s keyed by (rescaled score, move);
    - the rate loop (lines 65-73) turns the counts of every coordinate into
      win, draw and loss rates;
    - the per-move loop (lines 134-161) fits [winmodel] to the samples of
      each move from 3 to 119;
    - two more fits (lines 203-204) give the cubic trends of [a] and [b];
    - lines 211-218 print the normalisation values; [wdl] (lines 97-103)
      is the per-mille predictor.

    Number types.  Python integers are [Z]; the occurrence counts of the
    statistics file are [N].  The rescaled score and the rates are quotients
    of integers and are kept exact, as canonical rationals [Qc] (this also
    makes them usable as dictionary keys).  The fitted parameters come out of
    an external optimiser and go through [np.exp]; they are real numbers [R].
    Floating-point rounding is not modelled, nor are the infinite and
    not-a-number floats (a zero [b], an overflow of [np.exp]): division and
    [exp] are the total functions of [R].  In particular the win probability
    of [R] is always below 1, while the float one is exactly 1.0 once
    [(x - a) / b] exceeds about 36.7 (then [1.0 + np.exp(...)] rounds to
    1.0); what is stated about the integer part of the probability is stated
    away from that range and for a non-zero [b].
    [scipy.optimize.curve_fit] is not
    part of the script: it is a parameter of the pipeline, which either
    returns parameters or raises. *)

From Stdlib Require Import ZArith QArith Qcanon Reals Zfloor Lra Lia.
From stdpp Require Import gmap strings list fin_maps sorting.

Local Open Scope Z_scope.

(** ** Data model *)

(** A key of [inpdict]: [(result, move, material, score)] (line 45). *)
Abbreviation RawKey := (string * Z * Z * Z)%type.

(** A key of the [win], [draw] and [loss] counters: [(score, move)], the
    score already rescaled to the internal value. *)
Abbreviation Coord := (Qc * Z)%type.

(** A [collections.Counter]: a dictionary whose missing keys read as 0. *)
Abbreviation Counter := (gmap Coord N).

Record Tables := mkTables {
  win : Counter;
  draw : Counter;
  loss : Counter
}.

Definition empty_tables : Tables := mkTables ∅ ∅ ∅.

(** [c[k]] on a Counter: 0 for a missing key, and the key is not created. *)
Definition count (c : Counter) (k : Coord) : N := default 0%N (c !! k).

(** [c[k] += v]: the key exists afterwards, also when [v] is 0. *)
Definition counter_add (k : Coord) (v : N) (c : Counter) : Counter :=
  <[k := (count c k + v)%N]> c.

(** ** Data aggregation (lines 43-58) *)

(** The condition of line 47, under which the entry is skipped. *)
Definition excluded (move score : Z) : bool :=
  (Z.abs score >? 400) || (move <? 0) || (move >? 120).

(** Line 51: [score * args.NormalizeToPawnValue / 100], a true division. *)
Definition rescale (NormalizeToPawnValue score : Z) : Qc :=
  (Qc_of_Z (score * NormalizeToPawnValue) / Qc_of_Z 100)%Qc.

(** One iteration of the loop of lines 45-58. *)
Definition aggregate_step (NormalizeToPawnValue : Z)
    (k : RawKey) (v : N) (t : Tables) : Tables :=
  let '(result, move, _, score) := k in
  if excluded move score then t
  else
    let score' := rescale NormalizeToPawnValue score in
    if String.eqb result "W" then
      mkTables (counter_add (score', move) v (win t)) (draw t) (loss t)
    else if String.eqb result "D" then
      mkTables (win t) (counter_add (score', move) v (draw t)) (loss t)
    else if String.eqb result "L" then
      mkTables (win t) (draw t) (counter_add (score', move) v (loss t))
    else t.

(** The whole loop.  A Python dictionary is iterated in insertion order and
    [map_fold] in an order of its own; the result does not depend on the
    order (lemma [aggregate_step_comm] below). *)
Definition aggregate (NormalizeToPawnValue : Z) (inpdict : gmap RawKey N) : Tables :=
  map_fold (aggregate_step NormalizeToPawnValue) empty_tables inpdict.

(** [sum(c.values())] (line 61). *)
Definition sum_values {K} `{Countable K} (c : gmap K N) : N :=
  map_fold (λ _ v acc, (v + acc)%N) 0%N c.

(** The three totals printed by lines 60-62, added up. *)
Definition retained_total (t : Tables) : N :=
  (sum_values (win t) + sum_values (draw t) + sum_values (loss t))%N.

(** ** Coordinates (line 65) *)

(** Python's order on [(score, move)] tuples: lexicographic. *)
Definition coord_le (c1 c2 : Coord) : Prop :=
  (c1.1 < c2.1)%Qc ∨ (c1.1 = c2.1 ∧ c1.2 ≤ c2.2).

Global Instance coord_le_dec : RelDecision coord_le.
Proof. intros c1 c2. unfold coord_le. apply _. Defined.

(** [set(list(win.keys()) + list(draw.keys()) + list(loss.keys()))]. *)
Definition coord_set (t : Tables) : gset Coord :=
  dom (win t) ∪ dom (draw t) ∪ dom (loss t).

(** [coords = sorted(set(...))]. *)
Definition coords (t : Tables) : list Coord :=
  merge_sort coord_le (elements (coord_set t)).

(** ** Errors *)

(** What the script can raise in the modelled part: the division of line
    71 on a zero total, and whatever [curve_fit] raises (a [RuntimeError]
    when the optimiser does not converge, a [TypeError] or [ValueError] on
    data it refuses).  Nothing in the script catches an exception, so a
    raised one ends the run. *)
Inductive exn := ZeroDivisionError | CurveFitError.

Inductive result (A : Type) :=
  | Ok (a : A)
  | Raise (e : exn).
Arguments Ok {A} a.
Arguments Raise {A} e.

(** The error monad; [x ← r; k] is stdpp's notation for [mbind]. *)
Global Instance result_ret : MRet result := λ A a, Ok a.
Global Instance result_bind : MBind result := λ A B f r,
  match r with
  | Ok a => f a
  | Raise e => Raise e
  end.

Definition is_Ok {A} (r : result A) : Prop := ∃ a, r = Ok a.

(** ** Rates (lines 66-73) *)

(** The five lists [xs, ys, zwins, zdraws, zlosses] grow in lockstep; one
    record per position holds the five entries. *)
Record RateSample := mkSample {
  rs_score : Qc;
  rs_move : Z;
  rs_win : Qc;
  rs_draw : Qc;
  rs_loss : Qc
}.

Definition total_at (t : Tables) (c : Coord) : N :=
  (count (win t) c + count (draw t) c + count (loss t) c)%N.

(** [n / total] on Python integers: raises on a zero divisor. *)
Definition py_truediv (n d : N) : result Qc :=
  if decide (d = 0%N) then Raise ZeroDivisionError
  else Ok (Qc_of_Z (Z.of_N n) / Qc_of_Z (Z.of_N d))%Qc.

(** The body of the loop of lines 67-73. *)
Definition rate_at (t : Tables) (c : Coord) : result RateSample :=
  let total := total_at t c in
  zw ← py_truediv (count (win t) c) total;
  zd ← py_truediv (count (draw t) c) total;
  zl ← py_truediv (count (loss t) c) total;
  Ok (mkSample c.1 c.2 zw zd zl).

Fixpoint rate_loop (t : Tables) (cs : list Coord) : result (list RateSample) :=
  match cs with
  | [] => Ok []
  | c :: cs' =>
      s ← rate_at t c;
      rest ← rate_loop t cs';
      Ok (s :: rest)
  end.

(** Lines 43-73 together. *)
Definition rate_computer (NormalizeToPawnValue : Z) (inpdict : gmap RawKey N)
    : result (list RateSample) :=
  let t := aggregate NormalizeToPawnValue inpdict in
  rate_loop t (coords t).

(** ** Model functions (lines 81-103) *)

(** [winmodel(x, a, b)], line 82. *)
Definition winmodel (x a b : R) : R :=
  (1 / (1 + exp (- (x - a) / b)))%R.

(** The four coefficients [popt] of a cubic trend. *)
Abbreviation Coeffs := (R * R * R * R)%type.

(** [poly3(x, a, b, c, d)], lines 85-87, at a single point [x]. *)
Definition poly3 (moveTarget : Z) (x : R) (p : Coeffs) : R :=
  let '(a, b, c, d) := p in
  let xnp := (x / IZR moveTarget)%R in
  (((a * xnp + b) * xnp + c) * xnp + d)%R.

(** Python's [int(x)] on a float: the fractional part is discarded, that
    is, rounding towards zero. *)
Definition py_int (x : R) : Z :=
  if Rle_dec 0 x then Zfloor x else Zceil x.

(** [wdl(score, move, popt_as, popt_bs)], lines 97-103. *)
Definition wdl (moveTarget : Z) (score : R) (move : Z)
    (popt_as popt_bs : Coeffs) : Z * Z * Z :=
  let a := poly3 moveTarget (IZR move) popt_as in
  let b := poly3 moveTarget (IZR move) popt_bs in
  let w := py_int (1000 * winmodel score a b) in
  let l := py_int (1000 * winmodel (- score) a b) in
  let d := 1000 - w - l in
  (w, d, l).

(** ** Normalisation values (lines 211-218) *)

(** [sum(popt)]: the built-in [sum] starts from 0 and adds from the left. *)
Definition fsum (p : Coeffs) : R :=
  let '(a, b, c, d) := p in (0 + a + b + c + d)%R.

(** The four values printed by lines 213-218. *)
Record NormalizationResult := mkNorm {
  constant : Z;
  spread : Z;
  normalized_spread : R;
  draw_rate_at_zero : R
}.

Definition normalization (popt_as popt_bs : Coeffs) : NormalizationResult :=
  let fsum_a := fsum popt_as in
  let fsum_b := fsum popt_bs in
  {| constant := py_int fsum_a;
     spread := py_int fsum_b;
     normalized_spread := (fsum_b / fsum_a)%R;
     draw_rate_at_zero := (1 - 2 / (1 + exp (fsum_a / fsum_b)))%R |}.

(** ** The fitting pipeline (lines 132-161 and 203-218) *)

(** The lists [model_ms], [model_as], [model_bs] of line 134. *)
Record FitState := mkFit {
  model_ms : list Z;
  model_as : list R;
  model_bs : list R
}.

Definition empty_fit : FitState := mkFit [] [] [].

(** Line 136. *)
Definition grouping : Z := 1.

(** [range(3, 120, grouping)] with [grouping = 1]: the moves 3, ..., 119. *)
Definition bucket_starts : list Z := seqZ 3 (120 - 3).

(** The inner loop of lines 141-147: the samples that are not skipped by
    line 142, in the order of the lists. *)
Definition gather (mmin mmax : Z) (samples : list RateSample) : list RateSample :=
  filter (λ s, ¬ (rs_move s < mmin ∨ mmax ≤ rs_move s)) samples.

(** What the run hands over to the report and the plots. *)
Record Output := mkOutput {
  out_fit : FitState;
  out_as : Coeffs;
  out_bs : Coeffs;
  out_norm : NormalizationResult
}.

Section Pipeline.

(** The command-line option [--NormalizeToPawnValue].  The other one,
    [--moveTarget], enters the pipeline only inside [poly3], that is, inside
    the trend fit. *)
Variable NormalizeToPawnValue : Z.

(** [curve_fit(winmodel, xdata, ydata, p0=...)]: the fitted [(a, b)], or
    [None] when the call raises. *)
Variable curve_fit_winmodel : list Qc → list Qc → R * R → option (R * R).

(** [curve_fit(poly3, model_ms, ydata)]: the four coefficients, or [None]
    when the call raises. *)
Variable curve_fit_poly3 : list Z → list R → option Coeffs.

Definition lift_fit {A} (o : option A) : result A :=
  match o with
  | Some a => Ok a
  | None => Raise CurveFitError
  end.

(** The initial guess of line 157. *)
Definition p0 : R * R :=
  (IZR NormalizeToPawnValue, IZR NormalizeToPawnValue / 6)%R.

(** One iteration of the loop of lines 137-161, plotting left out. *)
Definition fit_step (samples : list RateSample) (m : Z) (st : FitState)
    : result FitState :=
  let mmin := m in
  let mmax := m + grouping in
  let data := gather mmin mmax samples in
  let xdata := rs_score <$> data in
  let ydata := rs_win <$> data in
  if (length ydata <? 10)%nat then Ok st
  else
    popt ← lift_fit (curve_fit_winmodel xdata ydata p0);
    Ok (mkFit (model_ms st ++ [m])
              (model_as st ++ [popt.1])
              (model_bs st ++ [popt.2])).

Fixpoint fit_loop (samples : list RateSample) (ms : list Z) (st : FitState)
    : result FitState :=
  match ms with
  | [] => Ok st
  | m :: ms' =>
      st' ← fit_step samples m st;
      fit_loop samples ms' st'
  end.

(** Lines 134-161. *)
Definition per_move_fit (samples : list RateSample) : result FitState :=
  fit_loop samples bucket_starts empty_fit.

(** The script from the input dictionary to the printed values. *)
Definition run (inpdict : gmap RawKey N) : result Output :=
  samples ← rate_computer NormalizeToPawnValue inpdict;
  st ← per_move_fit samples;
  popt_as ← lift_fit (curve_fit_poly3 (model_ms st) (model_as st));
  popt_bs ← lift_fit (curve_fit_poly3 (model_ms st) (model_bs st));
  Ok (mkOutput st popt_as popt_bs (normalization popt_as popt_bs)).

End Pipeline.

(** ** Plot ranges and the pawn axis (lines 106-120, 192, 257-258, 282-283) *)

(** [range(a, b)]: the integers from [a] up to [b - 1], none when [b <= a]. *)
Definition py_range (a b : Z) : list Z := seqZ a (b - a).

(** [((k * args.NormalizeToPawnValue) // 100 + 1) * 100], the bound of the
    score axis of a plot.  Python's [//] on integers rounds down, as [Z.div]
    does for the divisor 100. *)
Definition axis_bound (k NormalizeToPawnValue : Z) : Z :=
  (Z.div (k * NormalizeToPawnValue) 100 + 1) * 100.

(** The score axis of the win plots: [xmin] and [xmax] of lines 257-258
    ([xmax] also line 192). *)
Definition wins_xlim (NormalizeToPawnValue : Z) : Z * Z :=
  (- axis_bound 1 NormalizeToPawnValue, axis_bound 3 NormalizeToPawnValue).

(** The score axis of the draw plots: lines 282-283. *)
Definition draws_xlim (NormalizeToPawnValue : Z) : Z * Z :=
  (- axis_bound 2 NormalizeToPawnValue, axis_bound 2 NormalizeToPawnValue).

(** [np.ceil] and [np.floor]: floats with an integral value. *)
Definition np_ceil (x : R) : R := IZR (Zceil x).
Definition np_floor (x : R) : R := IZR (Zfloor x).

(** [tickmin] and [tickmax] of lines 108-109, for the axis limits [xlim]. *)
Definition tickmin (NormalizeToPawnValue : Z) (xlim : R * R) : Z :=
  py_int (np_ceil (xlim.1 / IZR NormalizeToPawnValue)) * 2.

Definition tickmax (NormalizeToPawnValue : Z) (xlim : R * R) : Z :=
  py_int (np_floor (xlim.2 / IZR NormalizeToPawnValue)) * 2 + 1.

(** [new_tick_locations], lines 110-112. *)
Definition new_tick_locations (NormalizeToPawnValue : Z) (xlim : R * R) : list R :=
  (λ x, IZR x / 2 * IZR NormalizeToPawnValue)%R <$>
    py_range (tickmin NormalizeToPawnValue xlim) (tickmax NormalizeToPawnValue xlim).

(** [z % 1] on a float: the distance to the integer below. *)
Definition mod_1 (z : R) : R := (z - IZR (Zfloor z))%R.

(** [tick_function], lines 114-116.  A label is the numeral printed by
    ["{z:.0f}"], kept here as the integer it denotes ([z] rounded, a tie
    going to the even integer); [None] is the empty label. *)
Definition tick_function (NormalizeToPawnValue : Z) (X : list R) : list (option Z) :=
  (λ x, let z := (x / IZR NormalizeToPawnValue)%R in
        if Rlt_dec (mod_1 z) (1 / 10) then
          let f := Zfloor z in
          Some (if Rlt_dec (z - IZR f) (/ 2) then f
                else if Rlt_dec (/ 2) (z - IZR f) then f + 1
                else if Z.even f then f else f + 1)
        else None) <$> X.

(** The model surface of lines 272-273 and 296-297: the win and the draw
    value of [wdl] as fractions. *)
Definition model_win (moveTarget : Z) (popt_as popt_bs : Coeffs)
    (score : R) (move : Z) : R :=
  (IZR (wdl moveTarget score move popt_as popt_bs).1.1 / 1000)%R.

Definition model_draw (moveTarget : Z) (popt_as popt_bs : Coeffs)
    (score : R) (move : Z) : R :=
  (IZR (wdl moveTarget score move popt_as popt_bs).1.2 / 1000)%R.

(** * Vocabulary of the properties *)

(** ** Aggregation *)

(** The outcomes that the loop counts (lines 53-58). *)
Definition is_outcome (result : string) : bool :=
  String.eqb result "W" || String.eqb result "D" || String.eqb result "L".

(** An entry is counted when line 47 lets it through and its outcome is one
    of the three. *)
Definition counted (k : RawKey) : bool :=
  let '(result, move, _, score) := k in
  negb (excluded move score) && is_outcome result.

(** The counts of the entries that the loop leaves out: those skipped by
    line 47 and those whose outcome is none of ["W"], ["D"], ["L"]. *)
Definition discarded_total (inpdict : gmap RawKey N) : N :=
  sum_values (filter (λ kv, counted kv.1 = false) inpdict).

(** No key of the counter holds a zero count. *)
Definition counter_positive (c : Counter) : Prop :=
  map_Forall (λ _ v, v ≠ 0%N) c.

Definition tables_positive (t : Tables) : Prop :=
  counter_positive (win t) ∧ counter_positive (draw t) ∧ counter_positive (loss t).

(** ** Rates *)

(** The sample that the loop body appends when its divisions are defined. *)
Definition sample_at (t : Tables) (c : Coord) : RateSample :=
  let total := Qc_of_Z (Z.of_N (total_at t c)) in
  mkSample c.1 c.2
    (Qc_of_Z (Z.of_N (count (win t) c)) / total)%Qc
    (Qc_of_Z (Z.of_N (count (draw t) c)) / total)%Qc
    (Qc_of_Z (Z.of_N (count (loss t) c)) / total)%Qc.

(** ** Buckets and fits *)

(** The samples of the bucket that starts at move [m]. *)
Definition bucket (samples : list RateSample) (m : Z) : list RateSample :=
  gather m (m + grouping) samples.

(** What the step does once [curve_fit] is called on the bucket. *)
Definition fit_attempt (NormalizeToPawnValue : Z)
    (curve_fit_winmodel : list Qc → list Qc → R * R → option (R * R))
    (samples : list RateSample) (m : Z) (st : FitState) : result FitState :=
  match curve_fit_winmodel (rs_score <$> bucket samples m)
          (rs_win <$> bucket samples m) (p0 NormalizeToPawnValue) with
  | Some popt =>
      Ok (mkFit (model_ms st ++ [m]) (model_as st ++ [popt.1])
                (model_bs st ++ [popt.2]))
  | None => Raise CurveFitError
  end.

(** The per-move loop as the specification words it (sections 4.3 and 7):
    a bucket whose fit fails is left out like a bucket with too few samples,
    and the loop goes on. *)
Definition spec_fit_step (NP : Z)
    (curve_fit_winmodel : list Qc → list Qc → R * R → option (R * R))
    (samples : list RateSample) (st : FitState) (m : Z) : FitState :=
  let data := bucket samples m in
  if (length data <? 10)%nat then st
  else
    match curve_fit_winmodel (rs_score <$> data) (rs_win <$> data) (p0 NP) with
    | Some popt =>
        mkFit (model_ms st ++ [m]) (model_as st ++ [popt.1])
              (model_bs st ++ [popt.2])
    | None => st
    end.

Definition spec_per_move_fit (NP : Z)
    (curve_fit_winmodel : list Qc → list Qc → R * R → option (R * R))
    (samples : list RateSample) : FitState :=
  foldl (spec_fit_step NP curve_fit_winmodel samples) empty_fit bucket_starts.

(** The fitted moves of a run, when it ends normally. *)
Definition fitted_moves (r : result Output) : result (list Z) :=
  out ← r; Ok (model_ms (out_fit out)).

(** The three lists have one entry per fitted bucket, and the entries are
    what [curve_fit] returned for the bucket. *)
Definition fit_consistent (NormalizeToPawnValue : Z)
    (curve_fit_winmodel : list Qc → list Qc → R * R → option (R * R))
    (samples : list RateSample) (st : FitState) : Prop :=
  length (model_as st) = length (model_ms st) ∧
  length (model_bs st) = length (model_ms st) ∧
  ∀ i m, model_ms st !! i = Some m →
    ∃ popt,
      curve_fit_winmodel (rs_score <$> bucket samples m)
        (rs_win <$> bucket samples m) (p0 NormalizeToPawnValue) = Some popt ∧
      model_as st !! i = Some popt.1 ∧
      model_bs st !! i = Some popt.2.

(** ** Moves inside and outside the buckets *)

(** The move of an input key. *)
Definition move_of (k : RawKey) : Z := k.1.1.2.

(** The moves that pass line 47 and lie in no bucket. *)
Definition unfitted_move (move : Z) : bool :=
  bool_decide (move ∈ [0; 1; 2; 120]).

(** Two inputs that differ only in observations at those moves. *)
Definition differ_only_at_unfitted (inp1 inp2 : gmap RawKey N) : Prop :=
  ∀ k, unfitted_move (move_of k) = false → inp1 !! k = inp2 !! k.

(** The moves of the buckets. *)
Definition fitted_move (move : Z) : Prop := 3 ≤ move ≤ 119.

Global Instance fitted_move_dec (move : Z) : Decision (fitted_move move).
Proof. unfold fitted_move. apply _. Defined.

(** The part of a counter, and of the tables, at the moves of the buckets. *)
Definition restrict_counter (c : Counter) : Counter :=
  filter (λ kv, fitted_move kv.1.2) c.

Definition restrict_tables (t : Tables) : Tables :=
  mkTables (restrict_counter (win t)) (restrict_counter (draw t))
           (restrict_counter (loss t)).

(** ** Contributions to the tables *)

(** The coordinate that an input key is filed under. *)
Definition coord_of (NP : Z) (k : RawKey) : Coord :=
  (rescale NP k.2, k.1.1.2).

(** The observation [k] passes line 47 and has outcome [r]. *)
Definition kept_as (r : string) (k : RawKey) : Prop :=
  k.1.1.1 = r ∧ excluded k.1.1.2 k.2 = false.

Global Instance kept_as_dec (r : string) (k : RawKey) : Decision (kept_as r k).
Proof. unfold kept_as. apply _. Defined.

(** The observation [k] is counted under outcome [r] at coordinate [c]. *)
Definition adds_to (NP : Z) (r : string) (c : Coord) (k : RawKey) : Prop :=
  kept_as r k ∧ coord_of NP k = c.

Global Instance adds_to_dec (NP : Z) (r : string) (c : Coord) (k : RawKey) :
  Decision (adds_to NP r c k).
Proof. unfold adds_to. apply _. Defined.

(** The loop of lines 45-58 run over the entries in the order of a list,
    as Python runs it over the entries in insertion order. *)
Definition aggregate_in_order (NP : Z) (entries : list (RawKey * N)) : Tables :=
  foldl (λ t kv, aggregate_step NP kv.1 kv.2 t) empty_tables entries.

(** ** Rounding *)

Section RealVocabulary.
Local Open Scope R_scope.

(** [z] is [x] with its fractional part discarded: the integer of the same
    sign that is nearest to zero among those within less than 1 of [x]. *)
Definition truncates_to (x : R) (z : Z) : Prop :=
  Rabs (IZR z) <= Rabs x < Rabs (IZR z) + 1 ∧ 0 <= x * IZR z.

(** Python's [round(x)]: the nearest integer, a tie going to the even one. *)
Definition py_round (x : R) : Z :=
  let f := Zfloor x in
  if Rlt_dec (x - IZR f) (/ 2) then f
  else if Rlt_dec (/ 2) (x - IZR f) then (f + 1)%Z
  else if Z.even f then f else (f + 1)%Z.

(** The four values as the specification words them: both sums rounded to
    the nearest integer, and the two derived values computed from the rounded
    integers. *)
Definition spec_normalization (popt_as popt_bs : Coeffs) : NormalizationResult :=
  let constant := py_round (fsum popt_as) in
  let spread := py_round (fsum popt_bs) in
  {| constant := constant;
     spread := spread;
     normalized_spread := IZR spread / IZR constant;
     draw_rate_at_zero := 1 - 2 / (1 + exp (IZR constant / IZR spread)) |}.

End RealVocabulary.

(** ** Sample inputs and optimisers *)

(** A small statistics file: at move 10 and raw score 50, three wins and one
    draw (under two material counts); at move 11 and raw score -50, two
    losses. *)
Definition small_stats : gmap RawKey N :=
  <[("W", 10, 0, 50) := 3%N]>
    (<[("D", 10, 5, 50) := 1%N]>
      (<[("L", 11, 5, -50) := 2%N]> ∅)).

(** A statistics file with ten coordinates (raw scores 0 to 9) at each of
    the moves 3 to 7, one game each: wins at move 3, draws at the others. *)
Definition demo_stats : gmap RawKey N :=
  list_to_map
    (m ← seqZ 3 5;
     s ← seqZ 0 10;
     [((if decide (m = 3) then "W" else "D", m, 0, s), 1%N)]).

(** Samples for one move: [n] coordinates at move [m], all of them wins. *)
Definition won_samples (m : Z) (n : nat) : list RateSample :=
  (λ x, mkSample (Qc_of_Z x) m 1 0 0) <$> seqZ 0 (Z.of_nat n).

(** An optimiser that never converges. *)
Definition curve_fit_never : list Qc → list Qc → R * R → option (R * R) :=
  λ _ _ _, None.

(** An optimiser that returns its initial guess. *)
Definition curve_fit_initial : list Qc → list Qc → R * R → option (R * R) :=
  λ _ _ p0, Some p0.

(** An optimiser that does not converge on win rates that are all 1, and
    returns its initial guess on other data. *)
Definition curve_fit_demo : list Qc → list Qc → R * R → option (R * R) :=
  λ _ ydata p0, if decide (Forall (λ y, y = 1%Qc) ydata) then None else Some p0.

(** A trend fit that returns the constant trend 1. *)
Definition curve_fit_poly3_demo : list Z → list R → option Coeffs :=
  λ _ _, Some (0, 0, 0, 1)%R.

(** * Properties *)

(** ** Counters *)

Lemma count_counter_add (k k' : Coord) (v : N) (c : Counter) :
  count (counter_add k v c) k' =
  if decide (k = k') then (count c k + v)%N else count c k'.
Proof.
  unfold counter_add, count at 1. rewrite lookup_insert.
  destruct (decide (k = k')); reflexivity.
Qed.

Lemma dom_counter_add (k : Coord) (v : N) (c : Counter) :
  dom (counter_add k v c) = {[k]} ∪ dom c.
Proof. unfold counter_add. apply dom_insert_L. Qed.

Lemma counter_add_comm (k1 k2 : Coord) (v1 v2 : N) (c : Counter) :
  counter_add k1 v1 (counter_add k2 v2 c) = counter_add k2 v2 (counter_add k1 v1 c).
Proof.
  apply map_eq. intros k. unfold counter_add at 1 3.
  rewrite !count_counter_add, !lookup_insert.
  unfold counter_add. rewrite !lookup_insert.
  repeat case_decide; simplify_eq; try reflexivity.
  f_equal. lia.
Qed.

Lemma sum_values_insert {K} `{Countable K} (i : K) (x : N) (m : gmap K N) :
  m !! i = None → sum_values (<[i:=x]> m) = (x + sum_values m)%N.
Proof.
  intros Hi. unfold sum_values. apply map_fold_insert_L; [|exact Hi].
  intros. lia.
Qed.

Lemma sum_values_empty {K} `{Countable K} : sum_values (∅ : gmap K N) = 0%N.
Proof. unfold sum_values. apply map_fold_empty. Qed.

Lemma sum_values_counter_add (k : Coord) (v : N) (c : Counter) :
  sum_values (counter_add k v c) = (sum_values c + v)%N.
Proof.
  unfold counter_add, count.
  destruct (c !! k) as [x|] eqn:Hk; simpl.
  - rewrite <- (insert_delete_id c k x) at 2 by exact Hk.
    rewrite <- insert_delete_eq.
    rewrite !sum_values_insert by apply lookup_delete_eq. lia.
  - rewrite sum_values_insert by exact Hk. lia.
Qed.

(** ** The aggregation loop *)

(** The iterations of the loop commute: the tables do not depend on the
    order in which the dictionary is scanned. *)
Lemma aggregate_step_comm (NP : Z) (k1 k2 : RawKey) (v1 v2 : N) (t : Tables) :
  aggregate_step NP k1 v1 (aggregate_step NP k2 v2 t) =
  aggregate_step NP k2 v2 (aggregate_step NP k1 v1 t).
Proof.
  destruct k1 as [[[r1 m1] a1] s1], k2 as [[[r2 m2] a2] s2], t as [w d l].
  unfold aggregate_step.
  destruct (excluded m1 s1), (excluded m2 s2); try reflexivity.
  destruct (String.eqb r1 "W"), (String.eqb r1 "D"), (String.eqb r1 "L"),
    (String.eqb r2 "W"), (String.eqb r2 "D"), (String.eqb r2 "L");
    simpl; try reflexivity; f_equal; apply counter_add_comm.
Qed.

Lemma aggregate_insert (NP : Z) (k : RawKey) (v : N) (inpdict : gmap RawKey N) :
  inpdict !! k = None →
  aggregate NP (<[k:=v]> inpdict) = aggregate_step NP k v (aggregate NP inpdict).
Proof.
  intros Hk. unfold aggregate. apply map_fold_insert_L; [|exact Hk].
  intros. apply aggregate_step_comm.
Qed.

Lemma aggregate_singleton (NP : Z) (k : RawKey) (v : N) :
  aggregate NP {[k := v]} = aggregate_step NP k v empty_tables.
Proof.
  rewrite <- insert_empty. rewrite aggregate_insert by apply lookup_empty.
  reflexivity.
Qed.

Lemma retained_total_step (NP : Z) (k : RawKey) (v : N) (t : Tables) :
  retained_total (aggregate_step NP k v t) =
  (retained_total t + if counted k then v else 0)%N.
Proof.
  destruct k as [[[r m] a] s], t as [w d l].
  unfold aggregate_step, counted, is_outcome, retained_total.
  destruct (excluded m s); simpl; [lia|].
  destruct (String.eqb r "W"); simpl; [rewrite sum_values_counter_add; lia|].
  destruct (String.eqb r "D"); simpl; [rewrite sum_values_counter_add; lia|].
  destruct (String.eqb r "L"); simpl; [rewrite sum_values_counter_add; lia|].
  lia.
Qed.

Lemma excluded_false_iff (move score : Z) :
  excluded move score = false ↔ Z.abs score ≤ 400 ∧ 0 ≤ move ≤ 120.
Proof.
  unfold excluded. rewrite !orb_false_iff.
  rewrite Z.gtb_ltb, !Z.ltb_ge. rewrite Z.gtb_ltb, Z.ltb_ge. tauto.
Qed.

Lemma counted_true_iff (result : string) (move material score : Z) :
  counted (result, move, material, score) = true ↔
  (Z.abs score ≤ 400 ∧ 0 ≤ move ≤ 120) ∧ is_outcome result = true.
Proof.
  unfold counted. rewrite andb_true_iff, negb_true_iff, excluded_false_iff.
  tauto.
Qed.

Lemma sum_values_zero_iff {K} `{Countable K} (m : gmap K N) :
  sum_values m = 0%N ↔ map_Forall (λ _ v, v = 0%N) m.
Proof.
  induction m as [|i x m Hi IH] using map_ind.
  - rewrite sum_values_empty. split; [intros _; apply map_Forall_empty|done].
  - rewrite sum_values_insert by exact Hi.
    rewrite map_Forall_insert by exact Hi. rewrite <- IH. lia.
Qed.

(** Every count of the input is either retained or discarded. *)
Lemma retained_plus_discarded (NP : Z) (inpdict : gmap RawKey N) :
  (retained_total (aggregate NP inpdict) + discarded_total inpdict)%N =
  sum_values inpdict.
Proof.
  unfold aggregate, discarded_total.
  apply (map_fold_weak_ind
    (λ t m, (retained_total t +
             sum_values (filter (λ kv : RawKey * N, counted kv.1 = false) m))%N
            = sum_values m)).
  - rewrite map_filter_empty. reflexivity.
  - intros k v m t Hk IH.
    rewrite retained_total_step, sum_values_insert by exact Hk.
    destruct (counted k) eqn:Hc.
    + rewrite map_filter_insert_False by (simpl; congruence).
      rewrite delete_id by exact Hk. lia.
    + rewrite map_filter_insert_True by exact Hc.
      rewrite sum_values_insert by (rewrite map_lookup_filter_None; auto).
      lia.
Qed.

(** C2, as the specification states it, fails: an observation at move 120
    passes the test of line 47 and is counted in the win table. *)
Lemma move_120_is_retained :
  excluded 120 0 = false ∧
  retained_total (aggregate 328 {[("W", 120, 0, 0) := 1%N]}) = 1%N.
Proof.
  split; [reflexivity|]. vm_compute. reflexivity.
Qed.

(** C2, amended. The filter of the aggregation loop keeps exactly the
    observations with [|score| <= 400] and [0 <= move <= 120]: a raw score
    of 400 is kept and 401 dropped; the moves 119 and 120 are kept, the
    moves 121 and -1 dropped.  A dictionary with one observation retains
    its count when the observation is kept and has outcome W, D or L, and
    retains nothing otherwise. *)
Theorem aggregation_filter_bounds (NP : Z) (result : string)
    (move material score : Z) (v : N) :
  (excluded move score = false ↔ Z.abs score ≤ 400 ∧ 0 ≤ move ≤ 120) ∧
  retained_total (aggregate NP {[(result, move, material, score) := v]}) =
    (if negb (excluded move score) && is_outcome result then v else 0%N) ∧
  excluded 0 400 = false ∧ excluded 0 (-400) = false ∧
  excluded 0 401 = true ∧ excluded 0 (-401) = true ∧
  excluded 119 0 = false ∧ excluded 120 0 = false ∧
  excluded 121 0 = true ∧ excluded (-1) 0 = true.
Proof.
  split; [apply excluded_false_iff|].
  split; [|repeat split; reflexivity].
  rewrite aggregate_singleton, retained_total_step. reflexivity.
Qed.

(** C8, as the specification states it, fails: an entry outside the score
    bound whose count is 0 is dropped without changing the totals, so the
    retained total equals the raw total although an entry violates the
    bounds. *)
Lemma equal_totals_with_violation :
  let inpdict : gmap RawKey N := {[("W", 10, 0, 401) := 0%N]} in
  retained_total (aggregate 328 inpdict) = sum_values inpdict ∧
  inpdict !! ("W", 10, 0, 401) = Some 0%N ∧
  excluded 10 401 = true.
Proof.
  cbv zeta. split; [vm_compute; reflexivity|].
  split; [apply lookup_singleton_eq|reflexivity].
Qed.

(** C8, amended. The retained total is at most the raw total, and the two
    are equal exactly when every entry with a non-zero count is inside the
    bounds of line 47 and has outcome W, D or L. *)
Theorem filtering_monotonic (NP : Z) (inpdict : gmap RawKey N) :
  (retained_total (aggregate NP inpdict) ≤ sum_values inpdict)%N ∧
  (retained_total (aggregate NP inpdict) = sum_values inpdict ↔
   ∀ result move material score v,
     inpdict !! (result, move, material, score) = Some v → v ≠ 0%N →
     (Z.abs score ≤ 400 ∧ 0 ≤ move ≤ 120) ∧ is_outcome result = true).
Proof.
  pose proof (retained_plus_discarded NP inpdict) as Hsum.
  split; [lia|].
  transitivity (discarded_total inpdict = 0%N); [lia|].
  unfold discarded_total. rewrite sum_values_zero_iff.
  rewrite map_Forall_lookup. split.
  - intros Hall r m a s v Hin Hv. apply (counted_true_iff r m a s).
    destruct (counted (r, m, a, s)) eqn:Hc; [reflexivity|].
    exfalso. apply Hv. apply (Hall (r, m, a, s)).
    rewrite map_lookup_filter_Some. auto.
  - intros Hall [[[r m] a] s] v Hin.
    apply map_lookup_filter_Some in Hin as [Hin Hc]. simpl in Hc.
    destruct (decide (v = 0%N)) as [|Hv]; [assumption|].
    pose proof (Hall r m a s v Hin Hv) as Hb.
    apply (counted_true_iff r m a s) in Hb. unfold counted in Hb. congruence.
Qed.

(** ** The sorted coordinates *)

Global Instance coord_le_total : Total coord_le.
Proof.
  intros [x1 y1] [x2 y2]. unfold coord_le. simpl.
  destruct (Qclt_le_dec x1 x2) as [|Hle]; [auto|].
  apply Qcle_lt_or_eq in Hle as [|<-]; [auto|].
  destruct (Z.le_ge_cases y1 y2); auto.
Qed.

Global Instance coord_le_trans : Transitive coord_le.
Proof.
  intros [x1 y1] [x2 y2] [x3 y3]. unfold coord_le. simpl.
  intros [H12|[-> H12]] [H23|[-> H23]]; eauto using Qclt_trans.
  right. split; [reflexivity|lia].
Qed.

Global Instance coord_le_antisymm : AntiSymm (=) coord_le.
Proof.
  intros [x1 y1] [x2 y2]. unfold coord_le. simpl.
  intros [H12|[-> H12]] [H21|[E H21]].
  - destruct (irreflexivity Qclt x1). eauto using Qclt_trans.
  - subst. destruct (irreflexivity Qclt x1). assumption.
  - destruct (irreflexivity Qclt x2). assumption.
  - f_equal. lia.
Qed.

Lemma coords_Permutation (t : Tables) : coords t ≡ₚ elements (coord_set t).
Proof. unfold coords. apply merge_sort_Permutation. Qed.

Lemma elem_of_coords (t : Tables) (c : Coord) :
  c ∈ coords t ↔ c ∈ dom (win t) ∨ c ∈ dom (draw t) ∨ c ∈ dom (loss t).
Proof.
  rewrite coords_Permutation, elem_of_elements. unfold coord_set.
  rewrite !elem_of_union. tauto.
Qed.

Lemma coords_sorted (t : Tables) : StronglySorted coord_le (coords t).
Proof. unfold coords. apply StronglySorted_merge_sort; apply _. Qed.

Lemma coords_NoDup (t : Tables) : NoDup (coords t).
Proof. rewrite coords_Permutation. apply NoDup_elements. Qed.

(** ** The rate loop *)

Lemma rate_at_spec (t : Tables) (c : Coord) :
  rate_at t c =
  if decide (total_at t c = 0%N) then Raise ZeroDivisionError
  else Ok (sample_at t c).
Proof.
  unfold rate_at, py_truediv, sample_at. cbv zeta.
  destruct (decide (total_at t c = 0%N)); reflexivity.
Qed.

Lemma rate_loop_Ok (t : Tables) (cs : list Coord) :
  Forall (λ c, total_at t c ≠ 0%N) cs →
  rate_loop t cs = Ok (sample_at t <$> cs).
Proof.
  induction 1 as [|c cs Hc _ IH]; [reflexivity|].
  simpl. rewrite rate_at_spec, IH.
  destruct (decide (total_at t c = 0%N)); [contradiction|reflexivity].
Qed.

Lemma rate_loop_Raise (t : Tables) (cs : list Coord) :
  Exists (λ c, total_at t c = 0%N) cs →
  rate_loop t cs = Raise ZeroDivisionError.
Proof.
  induction 1 as [c cs Hc|c cs _ IH]; simpl; rewrite rate_at_spec.
  - destruct (decide (total_at t c = 0%N)); [reflexivity|contradiction].
  - rewrite IH. destruct (decide (total_at t c = 0%N)); reflexivity.
Qed.

(** The loop either raises [ZeroDivisionError] or returns one sample per
    coordinate; it never returns a sample for a zero total. *)
Lemma rate_loop_cases (t : Tables) (cs : list Coord) :
  (Forall (λ c, total_at t c ≠ 0%N) cs ∧ rate_loop t cs = Ok (sample_at t <$> cs)) ∨
  (Exists (λ c, total_at t c = 0%N) cs ∧ rate_loop t cs = Raise ZeroDivisionError).
Proof.
  destruct (decide (Exists (λ c, total_at t c = 0%N) cs)) as [He|Hn].
  - right. auto using rate_loop_Raise.
  - left. apply not_Exists_Forall in Hn; [|intros c; apply _].
    auto using rate_loop_Ok.
Qed.

(** ** Positive counts *)

Lemma counter_add_positive (k : Coord) (v : N) (c : Counter) :
  v ≠ 0%N → counter_positive c → counter_positive (counter_add k v c).
Proof.
  intros Hv Hc. unfold counter_positive, counter_add.
  apply map_Forall_insert_2; [lia|exact Hc].
Qed.

Lemma aggregate_step_positive (NP : Z) (k : RawKey) (v : N) (t : Tables) :
  v ≠ 0%N → tables_positive t → tables_positive (aggregate_step NP k v t).
Proof.
  intros Hv (Hw & Hd & Hl). destruct k as [[[r m] a] s].
  unfold aggregate_step, tables_positive.
  destruct (excluded m s); [auto|].
  destruct (String.eqb r "W"); [simpl; auto using counter_add_positive|].
  destruct (String.eqb r "D"); [simpl; auto using counter_add_positive|].
  destruct (String.eqb r "L"); simpl; auto using counter_add_positive.
Qed.

Lemma aggregate_positive (NP : Z) (inpdict : gmap RawKey N) :
  map_Forall (λ _ v, v ≠ 0%N) inpdict → tables_positive (aggregate NP inpdict).
Proof.
  unfold aggregate.
  apply (map_fold_weak_ind
    (λ t m, map_Forall (λ _ v, v ≠ 0%N) m → tables_positive t)).
  - intros _. repeat split; apply map_Forall_empty.
  - intros k v m t Hk IH Hall.
    apply map_Forall_insert in Hall as [Hv Hall]; [|exact Hk].
    apply aggregate_step_positive; auto.
Qed.

Lemma count_positive (c : Counter) (k : Coord) :
  counter_positive c → k ∈ dom c → (1 ≤ count c k)%N.
Proof.
  intros Hc [v Hv]%elem_of_dom. unfold count. rewrite Hv. simpl.
  specialize (Hc k v Hv). simpl in Hc. lia.
Qed.

Lemma total_positive (t : Tables) (c : Coord) :
  tables_positive t → c ∈ coords t → (1 ≤ total_at t c)%N.
Proof.
  intros (Hw & Hd & Hl) Hc. apply elem_of_coords in Hc.
  unfold total_at. destruct Hc as [Hc|[Hc|Hc]].
  - pose proof (count_positive _ _ Hw Hc). lia.
  - pose proof (count_positive _ _ Hd Hc). lia.
  - pose proof (count_positive _ _ Hl Hc). lia.
Qed.

Lemma rate_bounds (n d : N) :
  (n ≤ d)%N → d ≠ 0%N →
  (0 ≤ Qc_of_Z (Z.of_N n) / Qc_of_Z (Z.of_N d))%Qc ∧
  (Qc_of_Z (Z.of_N n) / Qc_of_Z (Z.of_N d) ≤ 1)%Qc.
Proof.
  intros Hnd Hd.
  assert (0 < Qc_of_Z (Z.of_N d))%Qc as HD.
  { rewrite <- Z2Qc_inj_0. apply (proj1 (Z2Qc_inj_lt _ _)). lia. }
  assert (0 ≤ Qc_of_Z (Z.of_N n))%Qc as HN.
  { rewrite <- Z2Qc_inj_0. apply (proj1 (Z2Qc_inj_le _ _)). lia. }
  split.
  - apply Qcmult_nonneg_nonneg; [exact HN|].
    apply Qclt_le_weak, Qcinv_pos, HD.
  - apply (Qcmult_le_mono_pos_l _ _ (Qc_of_Z (Z.of_N d))); [exact HD|].
    rewrite Qcmult_div_r by (apply not_symmetry, Qclt_not_eq, HD).
    rewrite Qcmult_1_r. apply (proj1 (Z2Qc_inj_le _ _)). lia.
Qed.

Lemma rates_add_up (w d l : N) :
  (w + d + l)%N ≠ 0%N →
  (Qc_of_Z (Z.of_N w) / Qc_of_Z (Z.of_N (w + d + l)) +
   Qc_of_Z (Z.of_N d) / Qc_of_Z (Z.of_N (w + d + l)) +
   Qc_of_Z (Z.of_N l) / Qc_of_Z (Z.of_N (w + d + l)) = 1)%Qc.
Proof.
  intros Ht.
  assert (Qc_of_Z (Z.of_N (w + d + l)) ≠ 0%Qc) as HD.
  { rewrite <- Z2Qc_inj_0. intros E%Z2Qc_inj. lia. }
  transitivity (Qc_of_Z (Z.of_N (w + d + l)) / Qc_of_Z (Z.of_N (w + d + l)))%Qc.
  - rewrite !N2Z.inj_add, !Z2Qc_inj_add. unfold Qcdiv. ring.
  - unfold Qcdiv. apply Qcmult_inv_r, HD.
Qed.

(** C3, as the specification states it, fails: an entry with count 0 creates
    its coordinate (the key of [win] exists after [+= 0]), so the union of the
    tables holds a coordinate whose total is 0, and the division of line 71
    raises. *)
Lemma zero_count_gives_zero_total :
  let inpdict : gmap RawKey N := {[("W", 10, 0, 50) := 0%N]} in
  let t := aggregate 328 inpdict in
  (rescale 328 50, 10) ∈ coords t ∧
  total_at t (rescale 328 50, 10) = 0%N ∧
  rate_computer 328 inpdict = Raise ZeroDivisionError.
Proof.
  cbv zeta. split; [|split].
  - apply elem_of_coords. left. rewrite aggregate_singleton. simpl.
    rewrite dom_counter_add. apply elem_of_union_l, elem_of_singleton.
    reflexivity.
  - vm_compute. reflexivity.
  - vm_compute. reflexivity.
Qed.

(** C3, amended. When every count of the input is at least 1, every
    coordinate of the sorted union has a total of at least 1.  The script has
    no assertion of its own: when all totals are at least 1 the rate loop
    returns one sample per coordinate, and when some coordinate has total 0
    the division raises [ZeroDivisionError]; no rate is produced from a zero
    total. *)
Theorem rate_division_guard (NP : Z) (inpdict : gmap RawKey N) :
  let t := aggregate NP inpdict in
  (map_Forall (λ _ v, v ≠ 0%N) inpdict →
   ∀ c, c ∈ coords t → (1 ≤ total_at t c)%N) ∧
  ((∀ c, c ∈ coords t → (1 ≤ total_at t c)%N) →
   rate_computer NP inpdict = Ok (sample_at t <$> coords t)) ∧
  ((∃ c, c ∈ coords t ∧ total_at t c = 0%N) →
   rate_computer NP inpdict = Raise ZeroDivisionError).
Proof.
  cbv zeta. split; [|split].
  - intros Hall c Hc. apply total_positive; [|exact Hc].
    apply aggregate_positive, Hall.
  - intros Hall. unfold rate_computer. cbv zeta. apply rate_loop_Ok.
    apply Forall_forall. intros c Hc. specialize (Hall c Hc). lia.
  - intros (c & Hc & Hz). unfold rate_computer. cbv zeta.
    apply rate_loop_Raise, Exists_exists. eauto.
Qed.

(** C7. At every coordinate of the union whose total count is at least 1,
    the loop body succeeds and its three rates add up to exactly 1, each of
    them between 0 and 1 (exact rational arithmetic). *)
Theorem rates_sum_to_one (NP : Z) (inpdict : gmap RawKey N) (c : Coord) :
  let t := aggregate NP inpdict in
  c ∈ coords t → (1 ≤ total_at t c)%N →
  ∃ s, rate_at t c = Ok s ∧
       (rs_win s + rs_draw s + rs_loss s = 1)%Qc ∧
       (0 ≤ rs_win s)%Qc ∧ (rs_win s ≤ 1)%Qc ∧
       (0 ≤ rs_draw s)%Qc ∧ (rs_draw s ≤ 1)%Qc ∧
       (0 ≤ rs_loss s)%Qc ∧ (rs_loss s ≤ 1)%Qc.
Proof.
  cbv zeta. intros _ Ht. exists (sample_at (aggregate NP inpdict) c).
  assert (total_at (aggregate NP inpdict) c ≠ 0%N) as Hne by lia.
  split.
  { rewrite rate_at_spec. destruct (decide _); [contradiction|reflexivity]. }
  unfold sample_at. simpl. unfold total_at in *.
  split; [apply rates_add_up, Hne|].
  repeat split; apply rate_bounds; (lia || exact Hne).
Qed.

Lemma rate_division_guard_witness :
  rate_computer 328 small_stats =
  Ok (sample_at (aggregate 328 small_stats) <$> coords (aggregate 328 small_stats)).
Proof.
  destruct (rate_division_guard 328 small_stats) as (Hpos & Hok & _).
  apply Hok, Hpos.
  apply (bool_decide_unpack _). vm_compute. exact I.
Defined.

Lemma rates_sum_to_one_witness :
  ∃ s, rate_at (aggregate 328 small_stats) (rescale 328 50, 10) = Ok s ∧
       (rs_win s + rs_draw s + rs_loss s = 1)%Qc ∧
       (0 ≤ rs_win s)%Qc ∧ (rs_win s ≤ 1)%Qc ∧
       (0 ≤ rs_draw s)%Qc ∧ (rs_draw s ≤ 1)%Qc ∧
       (0 ≤ rs_loss s)%Qc ∧ (rs_loss s ≤ 1)%Qc.
Proof.
  apply (rates_sum_to_one 328 small_stats (rescale 328 50, 10)).
  - apply (bool_decide_unpack _). vm_compute. exact I.
  - apply (bool_decide_unpack _). vm_compute. exact I.
Defined.

(** ** Conversion of floats to integers *)

Section Truncation.
Local Open Scope R_scope.

Lemma py_int_nonneg (x : R) :
  0 <= x → IZR (py_int x) <= x < IZR (py_int x) + 1.
Proof.
  intros Hx. unfold py_int. destruct (Rle_dec 0 x); [|contradiction].
  apply Zfloor_bound.
Qed.

Lemma py_int_eq (x : R) (z : Z) :
  0 <= x → IZR z <= x < IZR z + 1 → py_int x = z.
Proof.
  intros Hx Hz. unfold py_int. destruct (Rle_dec 0 x); [|contradiction].
  apply Zfloor_eq, Hz.
Qed.

Lemma py_int_truncates (x : R) : truncates_to x (py_int x).
Proof.
  unfold truncates_to, py_int. destruct (Rle_dec 0 x) as [Hx|Hx].
  - pose proof (Zfloor_bound x) as [Hlo Hhi].
    assert (0 <= IZR (Zfloor x)) as Hf.
    { apply IZR_le. apply (Zfloor_lub 0). exact Hx. }
    rewrite (Rabs_pos_eq x), (Rabs_pos_eq (IZR (Zfloor x))) by assumption.
    split; [lra|]. apply Rmult_le_pos; assumption.
  - apply Rnot_le_lt in Hx.
    pose proof (Zceil_bound x) as [Hlo Hhi].
    assert (IZR (Zceil x) <= 0) as Hc.
    { apply IZR_le. unfold Zceil.
      pose proof (Zfloor_lub 0 (- x)) as Hl. simpl in Hl.
      assert (0 <= - x) as Hn by lra. specialize (Hl Hn). lia. }
    rewrite (Rabs_left x) by assumption.
    destruct (Req_dec (IZR (Zceil x)) 0) as [E|E].
    + rewrite E, Rabs_R0. split; [lra|]. lra.
    + rewrite (Rabs_left (IZR (Zceil x))) by lra.
      split; [lra|]. nra.
Qed.

Lemma py_round_eq (x : R) (f : Z) :
  IZR f <= x < IZR f + 1 → / 2 < x - IZR f → py_round x = (f + 1)%Z.
Proof.
  intros Hf Hhalf. unfold py_round. rewrite (Zfloor_eq f x Hf).
  destruct (Rlt_dec (x - IZR f) (/ 2)); [lra|].
  destruct (Rlt_dec (/ 2) (x - IZR f)); [reflexivity|contradiction].
Qed.

(** ** The win model *)

Lemma winmodel_pos (x a b : R) : 0 < winmodel x a b.
Proof.
  unfold winmodel. pose proof (exp_pos (- (x - a) / b)).
  apply Rdiv_lt_0_compat; lra.
Qed.

Lemma winmodel_lt_1 (x a b : R) : winmodel x a b < 1.
Proof.
  unfold winmodel. pose proof (exp_pos (- (x - a) / b)).
  apply (Rmult_lt_reg_r (1 + exp (- (x - a) / b))); [lra|].
  unfold Rdiv. rewrite Rmult_assoc, Rinv_l by lra. lra.
Qed.

Lemma exp_16_large : 65536 < exp 16.
Proof.
  pose proof (exp_ineq1 1 ltac:(lra)) as H1.
  assert (exp 2 = exp 1 * exp 1) as E2 by (rewrite <- exp_plus; f_equal; lra).
  assert (exp 4 = exp 2 * exp 2) as E4 by (rewrite <- exp_plus; f_equal; lra).
  assert (exp 8 = exp 4 * exp 4) as E8 by (rewrite <- exp_plus; f_equal; lra).
  assert (exp 16 = exp 8 * exp 8) as E16 by (rewrite <- exp_plus; f_equal; lra).
  assert (4 < exp 2) as H2 by nra.
  assert (16 < exp 4) as H4 by nra.
  assert (256 < exp 8) as H8 by nra.
  nra.
Qed.

End Truncation.

Section Predictor.
Local Open Scope R_scope.

Lemma winmodel_at_16 : 9999 / 10000 < winmodel 16 0 1 < 1.
Proof.
  split; [|apply winmodel_lt_1].
  unfold winmodel. replace (- (16 - 0) / 1) with (Ropp 16) by lra.
  rewrite exp_Ropp. pose proof exp_16_large as HE.
  set (i := / exp 16).
  assert (i * exp 16 = 1) as Hi by (apply Rinv_l; lra).
  assert (0 < i) as Hpos by (apply Rinv_0_lt_compat; lra).
  assert (i < / 10000) as Hsmall by nra.
  set (q := 1 / (1 + i)).
  assert (q * (1 + i) = 1) as Hq.
  { unfold q, Rdiv. rewrite Rmult_assoc, Rinv_l by lra. lra. }
  nra.
Qed.

Lemma winmodel_at_minus_16 : 0 < winmodel (Ropp 16) 0 1 < / 10000.
Proof.
  split; [apply winmodel_pos|].
  unfold winmodel. replace (- (Ropp 16 - 0) / 1) with 16 by lra.
  pose proof exp_16_large as HE.
  set (q := 1 / (1 + exp 16)).
  assert (q * (1 + exp 16) = 1) as Hq.
  { unfold q, Rdiv. rewrite Rmult_assoc, Rinv_l by lra. lra. }
  assert (0 < q) by (unfold q; apply Rdiv_lt_0_compat; lra).
  nra.
Qed.

Lemma poly3_constant (moveTarget : Z) (x d : R) :
  poly3 moveTarget x (0, 0, 0, d) = d.
Proof. unfold poly3. ring. Qed.


(** ** The predictor [wdl] *)

(** C4. For every score, move and pair of coefficient sets, the three
    integers returned by [wdl] add up to exactly 1000, and the draw value is
    what is left of 1000 after the win and loss values: it is not rounded on
    its own. *)
Theorem wdl_conservation (moveTarget : Z) (score : R) (move : Z)
    (popt_as popt_bs : Coeffs) :
  let '(w, d, l) := wdl moveTarget score move popt_as popt_bs in
  (w + d + l = 1000)%Z ∧ (d = 1000 - w - l)%Z.
Proof.
  unfold wdl. cbv zeta. split; lia.
Qed.

(** C5, as the specification states it, fails: with [a = 0] and [b = 1] a
    score of 16 has a win probability above 0.9999, so 1000 times it lies
    between 999.9 and 1000; [wdl] returns 999, where rounding to the nearest
    integer gives 1000. *)
Lemma wdl_win_is_not_rounded :
  let a := poly3 32 (IZR 32) (0, 0, 0, 0) in
  let b := poly3 32 (IZR 32) (0, 0, 0, 1) in
  wdl 32 16 32 (0, 0, 0, 0) (0, 0, 0, 1) = (999, 1, 0)%Z ∧
  py_round (1000 * winmodel 16 a b) = 1000%Z.
Proof.
  cbv zeta. unfold wdl. cbv zeta. rewrite !poly3_constant.
  pose proof winmodel_at_16 as [Hlo Hhi].
  pose proof winmodel_at_minus_16 as [Hlo' Hhi'].
  assert (py_int (1000 * winmodel 16 0 1) = 999%Z) as ->.
  { apply py_int_eq; lra. }
  assert (py_int (1000 * winmodel (Ropp 16) 0 1) = 0%Z) as ->.
  { apply py_int_eq; lra. }
  split; [reflexivity|].
  apply (py_round_eq _ 999); lra.
Qed.

(** C5, amended. Where the float computation stays finite and does not
    saturate (a non-zero target move, a non-zero [b(move)], and both
    [(score - a(move)) / b(move)] and [(- score - a(move)) / b(move)] at most
    36, so that neither win probability has rounded to exactly 1.0), [wdl]
    returns as win value the integer part of 1000 times the win probability
    of the score, and as loss value the integer part of 1000 times the win
    probability of the negated score: the largest integer not above the
    product (the product is positive, and [int] discards its fractional
    part), not the nearest integer. *)
Theorem wdl_truncates (moveTarget : Z) (score : R) (move : Z)
    (popt_as popt_bs : Coeffs) :
  moveTarget ≠ 0%Z →
  poly3 moveTarget (IZR move) popt_bs ≠ 0 →
  (score - poly3 moveTarget (IZR move) popt_as)
    / poly3 moveTarget (IZR move) popt_bs <= 36 →
  (- score - poly3 moveTarget (IZR move) popt_as)
    / poly3 moveTarget (IZR move) popt_bs <= 36 →
  let a := poly3 moveTarget (IZR move) popt_as in
  let b := poly3 moveTarget (IZR move) popt_bs in
  let '(w, _, l) := wdl moveTarget score move popt_as popt_bs in
  w = py_int (1000 * winmodel score a b) ∧
  l = py_int (1000 * winmodel (- score) a b) ∧
  IZR w <= 1000 * winmodel score a b < IZR w + 1 ∧
  IZR l <= 1000 * winmodel (- score) a b < IZR l + 1.
Proof.
  intros _ _ _ _. cbv zeta. unfold wdl. cbv zeta.
  split; [reflexivity|]. split; [reflexivity|].
  split; apply py_int_nonneg.
  - pose proof (winmodel_pos score (poly3 moveTarget (IZR move) popt_as)
      (poly3 moveTarget (IZR move) popt_bs)). lra.
  - pose proof (winmodel_pos (- score) (poly3 moveTarget (IZR move) popt_as)
      (poly3 moveTarget (IZR move) popt_bs)). lra.
Qed.

Lemma wdl_truncates_witness :
  let a := poly3 32 (IZR 32) (0, 0, 0, 0) in
  let b := poly3 32 (IZR 32) (0, 0, 0, 1) in
  let '(w, _, l) := wdl 32 16 32 (0, 0, 0, 0) (0, 0, 0, 1) in
  w = py_int (1000 * winmodel 16 a b) ∧
  l = py_int (1000 * winmodel (- (16)) a b) ∧
  IZR w <= 1000 * winmodel 16 a b < IZR w + 1 ∧
  IZR l <= 1000 * winmodel (- (16)) a b < IZR l + 1.
Proof.
  apply (wdl_truncates 32 16 32 (0, 0, 0, 0) (0, 0, 0, 1)).
  - discriminate.
  - rewrite poly3_constant. lra.
  - rewrite !poly3_constant. lra.
  - rewrite !poly3_constant. lra.
Defined.

End Predictor.

(** ** The normalisation values *)

Section Normalization.
Local Open Scope R_scope.

Lemma draw_rate_inj (x y : R) :
  1 - 2 / (1 + exp x) = 1 - 2 / (1 + exp y) → x = y.
Proof.
  intros H. pose proof (exp_pos x) as Hx. pose proof (exp_pos y) as Hy.
  apply exp_inv.
  assert (/ (1 + exp x) = / (1 + exp y)) as Hinv by (unfold Rdiv in H; lra).
  apply (f_equal Rinv) in Hinv. rewrite !Rinv_inv in Hinv. lra.
Qed.

(** The sum of the coefficients is the trend at the target move (the comment
    of lines 208-210). *)
Lemma fsum_poly3 (moveTarget : Z) (p : Coeffs) :
  moveTarget ≠ 0%Z → fsum p = poly3 moveTarget (IZR moveTarget) p.
Proof.
  intros Hm. destruct p as [[[a b] c] d]. unfold fsum, poly3.
  assert (IZR moveTarget / IZR moveTarget = 1) as ->.
  { apply Rdiv_diag. apply not_0_IZR. exact Hm. }
  ring.
Qed.

(** C1, as the specification states it, fails: for coefficient sums 327.75
    and 54.6 the script prints 327 and 54, not the rounded 328 and 55, and
    its last two values are computed from the sums themselves, not from the
    integers. *)
Lemma normalization_is_not_rounded :
  let popt_as : Coeffs := (0, 0, 0, 1311 / 4) in
  let popt_bs : Coeffs := (0, 0, 0, 273 / 5) in
  let r := normalization popt_as popt_bs in
  let r' := spec_normalization popt_as popt_bs in
  (constant r = 327%Z ∧ constant r' = 328%Z) ∧
  (spread r = 54%Z ∧ spread r' = 55%Z) ∧
  normalized_spread r ≠ normalized_spread r' ∧
  draw_rate_at_zero r ≠ draw_rate_at_zero r'.
Proof.
  cbv zeta.
  assert (fsum (0, 0, 0, 1311 / 4) = 1311 / 4) as Ea by (unfold fsum; lra).
  assert (fsum (0, 0, 0, 273 / 5) = 273 / 5) as Eb by (unfold fsum; lra).
  assert (py_round (1311 / 4) = 328%Z) as Ra by (apply (py_round_eq _ 327); lra).
  assert (py_round (273 / 5) = 55%Z) as Rb by (apply (py_round_eq _ 54); lra).
  unfold normalization, spec_normalization. cbv zeta.
  cbn [constant spread normalized_spread draw_rate_at_zero].
  rewrite Ea, Eb, Ra, Rb.
  split; [split; [apply py_int_eq; lra|reflexivity]|].
  split; [split; [apply py_int_eq; lra|reflexivity]|].
  split.
  - intros E.
    assert (273 / 5 / (1311 / 4) * (1311 / 4) = 55 / 328 * (1311 / 4)) as E'
      by (rewrite E; reflexivity).
    unfold Rdiv at 1 in E'. rewrite Rmult_assoc, Rinv_l in E' by lra. lra.
  - intros E%draw_rate_inj.
    assert (1311 / 4 / (273 / 5) * (273 / 5) = 328 / 55 * (273 / 5)) as E'
      by (rewrite E; reflexivity).
    unfold Rdiv at 1 in E'. rewrite Rmult_assoc, Rinv_l in E' by lra. lra.
Qed.

(** C1, amended. The script prints as constant and as spread the sums of the
    four coefficients of the two trends with their fractional parts
    discarded (rounded towards zero), and computes the normalised spread and
    the draw rate at zero from the sums themselves:
    [fsum_b / fsum_a] and [1 - 2 / (1 + exp (fsum_a / fsum_b))]. *)
Theorem normalization_values (popt_as popt_bs : Coeffs) :
  let '(a3, a2, a1, a0) := popt_as in
  let '(b3, b2, b1, b0) := popt_bs in
  let fsum_a := a3 + a2 + a1 + a0 in
  let fsum_b := b3 + b2 + b1 + b0 in
  let r := normalization popt_as popt_bs in
  truncates_to fsum_a (constant r) ∧
  truncates_to fsum_b (spread r) ∧
  normalized_spread r = fsum_b / fsum_a ∧
  draw_rate_at_zero r = 1 - 2 / (1 + exp (fsum_a / fsum_b)).
Proof.
  destruct popt_as as [[[a3 a2] a1] a0], popt_bs as [[[b3 b2] b1] b0].
  cbv zeta. unfold normalization. cbv zeta.
  cbn [constant spread normalized_spread draw_rate_at_zero fsum].
  assert (0 + a3 + a2 + a1 + a0 = a3 + a2 + a1 + a0) as -> by ring.
  assert (0 + b3 + b2 + b1 + b0 = b3 + b2 + b1 + b0) as -> by ring.
  repeat split; try apply py_int_truncates.
Qed.

End Normalization.

(** ** The per-move fitting loop *)

(** With [grouping = 1] a bucket holds the samples of one move. *)
Lemma bucket_one_move (samples : list RateSample) (m : Z) :
  bucket samples m = filter (λ s, rs_move s = m) samples.
Proof.
  unfold bucket, gather, grouping. apply list_filter_iff. intros s. lia.
Qed.

Lemma elem_of_bucket_starts (m : Z) : m ∈ bucket_starts ↔ 3 ≤ m ≤ 119.
Proof. unfold bucket_starts. rewrite elem_of_seqZ. lia. Qed.

Section FitLoop.

Variable NormalizeToPawnValue : Z.
Variable curve_fit_winmodel : list Qc → list Qc → R * R → option (R * R).

Local Abbreviation fit_step' := (fit_step NormalizeToPawnValue curve_fit_winmodel).
Local Abbreviation fit_loop' := (fit_loop NormalizeToPawnValue curve_fit_winmodel).
Local Abbreviation fit_attempt' := (fit_attempt NormalizeToPawnValue curve_fit_winmodel).

Lemma fit_step_skip (samples : list RateSample) (m : Z) (st : FitState) :
  (length (bucket samples m) ≤ 9)%nat → fit_step' samples m st = Ok st.
Proof.
  intros Hn. unfold fit_step. cbv zeta. fold (bucket samples m).
  rewrite length_fmap. destruct (Nat.ltb_spec (length (bucket samples m)) 10); [reflexivity|lia].
Qed.

Lemma fit_step_attempt (samples : list RateSample) (m : Z) (st : FitState) :
  (10 ≤ length (bucket samples m))%nat →
  fit_step' samples m st = fit_attempt' samples m st.
Proof.
  intros Hn. unfold fit_step, fit_attempt. cbv zeta.
  fold (bucket samples m). rewrite length_fmap.
  destruct (Nat.ltb_spec (length (bucket samples m)) 10); [lia|].
  destruct (curve_fit_winmodel _ _ _); reflexivity.
Qed.

(** The step only looks at the samples of its own bucket. *)
Lemma fit_step_ext (s1 s2 : list RateSample) (m : Z) (st : FitState) :
  bucket s1 m = bucket s2 m → fit_step' s1 m st = fit_step' s2 m st.
Proof.
  intros E. unfold fit_step. cbv zeta.
  fold (bucket s1 m) (bucket s2 m). rewrite E. reflexivity.
Qed.

Lemma fit_loop_ext (s1 s2 : list RateSample) (ms : list Z) (st : FitState) :
  (∀ m, m ∈ ms → bucket s1 m = bucket s2 m) →
  fit_loop' s1 ms st = fit_loop' s2 ms st.
Proof.
  revert st. induction ms as [|m ms IH]; intros st Hb; [reflexivity|].
  simpl.
  rewrite (fit_step_ext s1 s2) by (apply Hb; left).
  destruct (fit_step' s2 m st) as [st'|e]; simpl; [|reflexivity].
  apply IH. intros m' Hm'. apply Hb. right. exact Hm'.
Qed.

(** The step raises nothing but what [curve_fit] raises. *)
Lemma fit_step_cases (samples : list RateSample) (m : Z) (st : FitState) :
  (∃ st', fit_step' samples m st = Ok st') ∨
  fit_step' samples m st = Raise CurveFitError.
Proof.
  destruct (le_lt_dec (length (bucket samples m)) 9) as [Hn|Hn].
  - left. exists st. apply fit_step_skip, Hn.
  - rewrite fit_step_attempt by lia. unfold fit_attempt.
    destruct (curve_fit_winmodel _ _ _); eauto.
Qed.

(** A failed fit ends the loop, wherever its bucket stands in the range. *)
Lemma fit_loop_failure (samples : list RateSample) (ms : list Z) (m : Z)
    (st : FitState) :
  m ∈ ms → (10 ≤ length (bucket samples m))%nat →
  curve_fit_winmodel (rs_score <$> bucket samples m)
    (rs_win <$> bucket samples m) (p0 NormalizeToPawnValue) = None →
  fit_loop' samples ms st = Raise CurveFitError.
Proof.
  intros Hm Hn Hfail. revert st.
  induction ms as [|m' ms IH]; intros st; [inversion Hm|].
  simpl.
  destruct (decide (m' = m)) as [->|Hne].
  - rewrite fit_step_attempt by exact Hn. unfold fit_attempt.
    rewrite Hfail. reflexivity.
  - destruct (fit_step_cases samples m' st) as [[st' ->]| ->]; simpl.
    + apply IH. apply elem_of_cons in Hm as [E|Hm]; [congruence|exact Hm].
    + reflexivity.
Qed.

(** When the loop ends normally, the fitted moves are the bucket starts
    with at least 10 samples, in increasing order. *)
Lemma fit_loop_moves (samples : list RateSample) (ms : list Z)
    (st st' : FitState) :
  fit_loop' samples ms st = Ok st' →
  model_ms st' =
  model_ms st ++ filter (λ m, (10 ≤ length (bucket samples m))%nat) ms.
Proof.
  revert st. induction ms as [|m ms IH]; intros st.
  - simpl. intros [= ->]. rewrite app_nil_r. reflexivity.
  - simpl.
    rewrite filter_cons.
    destruct (decide (10 ≤ length (bucket samples m))%nat) as [Hn|Hn].
    + rewrite fit_step_attempt by exact Hn. unfold fit_attempt.
      destruct (curve_fit_winmodel _ _ _) as [popt|]; simpl; [|discriminate].
      intros Hloop. apply IH in Hloop. simpl in Hloop.
      rewrite Hloop, <- app_assoc. reflexivity.
    + rewrite fit_step_skip by lia. simpl. apply IH.
Qed.

End FitLoop.

(** C6. The per-move loop visits the buckets that start at the moves 3 to
    119, each holding the samples of one move.  A bucket with 9 samples or
    fewer is skipped: the step returns the lists unchanged, whatever
    [curve_fit] would do, and raises nothing.  A bucket with 10 samples or
    more is fitted: the step is the call of [curve_fit] on the scores and win
    rates of the bucket.  When the loop ends normally, the fitted moves are
    exactly the bucket starts with at least 10 samples. *)
Theorem bucket_threshold (NP : Z)
    (curve_fit_winmodel : list Qc → list Qc → R * R → option (R * R))
    (samples : list RateSample) (m : Z) (st : FitState) :
  (m ∈ bucket_starts ↔ 3 ≤ m ≤ 119) ∧
  bucket samples m = filter (λ s, rs_move s = m) samples ∧
  ((length (bucket samples m) ≤ 9)%nat →
   fit_step NP curve_fit_winmodel samples m st = Ok st) ∧
  ((10 ≤ length (bucket samples m))%nat →
   fit_step NP curve_fit_winmodel samples m st =
   fit_attempt NP curve_fit_winmodel samples m st) ∧
  (∀ st', per_move_fit NP curve_fit_winmodel samples = Ok st' →
   model_ms st' =
   filter (λ m, (10 ≤ length (bucket samples m))%nat) bucket_starts).
Proof.
  split; [apply elem_of_bucket_starts|].
  split; [apply bucket_one_move|].
  split; [apply fit_step_skip|].
  split; [apply fit_step_attempt|].
  intros st' Hfit. apply fit_loop_moves in Hfit. exact Hfit.
Qed.

Lemma bucket_threshold_witness :
  fit_step 328 curve_fit_never (won_samples 5 9) 5 empty_fit = Ok empty_fit ∧
  fit_step 328 curve_fit_never (won_samples 5 10) 5 empty_fit =
    Raise CurveFitError.
Proof.
  split.
  - apply (bucket_threshold 328 curve_fit_never (won_samples 5 9) 5 empty_fit).
    vm_compute. lia.
  - destruct (bucket_threshold 328 curve_fit_never (won_samples 5 10) 5 empty_fit)
      as (_ & _ & _ & Hfit & _).
    rewrite Hfit; [reflexivity|]. vm_compute. lia.
Defined.

(** ** Failure of a fit *)

(** C9, as the specification states it, fails: of five buckets with ten
    samples each, the fit of the first does not converge.  Leaving that
    bucket out would keep the four buckets 4 to 7 for the trend fit; the
    script ends with the exception of [curve_fit] instead. *)
Lemma failed_fit_ends_run :
  (samples ← rate_computer 328 demo_stats;
   Ok (model_ms (spec_per_move_fit 328 curve_fit_demo samples)))
    = Ok [4; 5; 6; 7] ∧
  run 328 curve_fit_demo curve_fit_poly3_demo demo_stats
    = Raise CurveFitError.
Proof.
  split; vm_compute; reflexivity.
Qed.

(** C9, amended. Nothing in the script catches what [curve_fit] raises.
    When the fit of a bucket with at least 10 samples fails, the whole run
    ends with that exception, whatever the number of buckets that could be
    fitted; only a bucket with fewer than 10 samples is left out while the
    run goes on.  The script has no minimum number of fitted buckets of its
    own: when every attempted fit succeeds, the fitted buckets, however few,
    are handed to the two trend fits, and the run ends with an exception
    exactly when one of these raises. *)
Theorem fit_failure_is_fatal (NP : Z)
    (curve_fit_winmodel : list Qc → list Qc → R * R → option (R * R))
    (curve_fit_poly3 : list Z → list R → option Coeffs)
    (inpdict : gmap RawKey N) (samples : list RateSample) :
  rate_computer NP inpdict = Ok samples →
  (∀ m, m ∈ bucket_starts → (10 ≤ length (bucket samples m))%nat →
     curve_fit_winmodel (rs_score <$> bucket samples m)
       (rs_win <$> bucket samples m) (p0 NP) = None →
     run NP curve_fit_winmodel curve_fit_poly3 inpdict
       = Raise CurveFitError) ∧
  (∀ st, per_move_fit NP curve_fit_winmodel samples = Ok st →
     run NP curve_fit_winmodel curve_fit_poly3 inpdict =
     match curve_fit_poly3 (model_ms st) (model_as st),
           curve_fit_poly3 (model_ms st) (model_bs st) with
     | Some popt_as, Some popt_bs =>
         Ok (mkOutput st popt_as popt_bs (normalization popt_as popt_bs))
     | _, _ => Raise CurveFitError
     end).
Proof.
  intros Hrates. split.
  - intros m Hm Hn Hfail. unfold run. rewrite Hrates. simpl.
    unfold per_move_fit.
    rewrite (fit_loop_failure NP curve_fit_winmodel samples bucket_starts m)
      by assumption.
    reflexivity.
  - intros st Hfit. unfold run. rewrite Hrates. simpl. rewrite Hfit. simpl.
    destruct (curve_fit_poly3 (model_ms st) (model_as st)); simpl;
      [|reflexivity].
    destruct (curve_fit_poly3 (model_ms st) (model_bs st)); reflexivity.
Qed.

Lemma demo_rates :
  rate_computer 328 demo_stats =
  Ok (sample_at (aggregate 328 demo_stats) <$> coords (aggregate 328 demo_stats)).
Proof.
  unfold rate_computer. cbv zeta. apply rate_loop_Ok.
  apply (bool_decide_unpack _). vm_compute. exact I.
Defined.

Lemma fit_failure_is_fatal_witness :
  run 328 curve_fit_demo curve_fit_poly3_demo demo_stats = Raise CurveFitError.
Proof.
  destruct (fit_failure_is_fatal 328 curve_fit_demo curve_fit_poly3_demo
    demo_stats _ demo_rates) as [Hfatal _].
  apply (Hfatal 3).
  - apply elem_of_bucket_starts. lia.
  - vm_compute. lia.
  - vm_compute. reflexivity.
Defined.

(** ** Moves outside the fitted range *)

Lemma lookup_restrict (w : Counter) (c : Coord) :
  fitted_move c.2 → restrict_counter w !! c = w !! c.
Proof.
  intros Hc. unfold restrict_counter. apply option_eq. intros v.
  rewrite map_lookup_filter_Some. simpl. tauto.
Qed.

Lemma count_restrict (w : Counter) (c : Coord) :
  fitted_move c.2 → count (restrict_counter w) c = count w c.
Proof. intros Hc. unfold count. rewrite lookup_restrict by exact Hc. reflexivity. Qed.

Lemma restrict_counter_add_in (c : Coord) (v : N) (w : Counter) :
  fitted_move c.2 →
  restrict_counter (counter_add c v w) = counter_add c v (restrict_counter w).
Proof.
  intros Hc. unfold counter_add. rewrite count_restrict by exact Hc.
  unfold restrict_counter. apply map_filter_insert_True. exact Hc.
Qed.

Lemma restrict_counter_add_out (c : Coord) (v : N) (w : Counter) :
  ¬ fitted_move c.2 →
  restrict_counter (counter_add c v w) = restrict_counter w.
Proof.
  intros Hc. unfold counter_add, restrict_counter.
  rewrite map_filter_insert_False by exact Hc.
  apply map_filter_delete_not. intros y _. exact Hc.
Qed.

Lemma restrict_step_in (NP : Z) (k : RawKey) (v : N) (t : Tables) :
  fitted_move (move_of k) →
  restrict_tables (aggregate_step NP k v t) =
  aggregate_step NP k v (restrict_tables t).
Proof.
  destruct k as [[[r m] a] s], t as [w d l]. unfold move_of. simpl.
  intros Hm. unfold restrict_tables.
  destruct (excluded m s); [reflexivity|].
  destruct (String.eqb r "W");
    [simpl; rewrite restrict_counter_add_in by exact Hm; reflexivity|].
  destruct (String.eqb r "D");
    [simpl; rewrite restrict_counter_add_in by exact Hm; reflexivity|].
  destruct (String.eqb r "L");
    [simpl; rewrite restrict_counter_add_in by exact Hm; reflexivity|].
  reflexivity.
Qed.

Lemma restrict_step_out (NP : Z) (k : RawKey) (v : N) (t : Tables) :
  ¬ fitted_move (move_of k) →
  restrict_tables (aggregate_step NP k v t) = restrict_tables t.
Proof.
  destruct k as [[[r m] a] s], t as [w d l]. unfold move_of. simpl.
  intros Hm. unfold restrict_tables.
  destruct (excluded m s); [reflexivity|].
  destruct (String.eqb r "W");
    [simpl; rewrite restrict_counter_add_out by exact Hm; reflexivity|].
  destruct (String.eqb r "D");
    [simpl; rewrite restrict_counter_add_out by exact Hm; reflexivity|].
  destruct (String.eqb r "L");
    [simpl; rewrite restrict_counter_add_out by exact Hm; reflexivity|].
  reflexivity.
Qed.

(** The tables at the moves of the buckets are built from the observations
    at those moves alone. *)
Lemma aggregate_restrict (NP : Z) (inpdict : gmap RawKey N) :
  restrict_tables (aggregate NP inpdict) =
  aggregate NP (filter (λ kv, fitted_move (move_of kv.1)) inpdict).
Proof.
  unfold aggregate at 1.
  apply (map_fold_weak_ind (λ t m,
    restrict_tables t =
    aggregate NP (filter (λ kv : RawKey * N, fitted_move (move_of kv.1)) m))).
  - rewrite map_filter_empty. reflexivity.
  - intros k v m t Hk IH.
    destruct (decide (fitted_move (move_of k))) as [Hm|Hm].
    + rewrite map_filter_insert_True by exact Hm.
      rewrite aggregate_insert by (rewrite map_lookup_filter_None; auto).
      rewrite restrict_step_in by exact Hm. rewrite IH. reflexivity.
    + rewrite map_filter_insert_False by exact Hm.
      rewrite delete_id by exact Hk.
      rewrite restrict_step_out by exact Hm. exact IH.
Qed.

Lemma unfitted_not_fitted (move : Z) :
  fitted_move move → unfitted_move move = false.
Proof.
  unfold fitted_move, unfitted_move. intros Hm.
  apply bool_decide_eq_false. rewrite !elem_of_cons, elem_of_nil. lia.
Qed.

Lemma differ_restrict (NP : Z) (inp1 inp2 : gmap RawKey N) :
  differ_only_at_unfitted inp1 inp2 →
  restrict_tables (aggregate NP inp1) = restrict_tables (aggregate NP inp2).
Proof.
  intros Hd. rewrite !aggregate_restrict. f_equal.
  apply map_eq. intros k. apply option_eq. intros v.
  rewrite !map_lookup_filter_Some. simpl.
  split; intros [Hk Hm]; (split; [|exact Hm]).
  - rewrite <- Hd; [exact Hk|]. apply unfitted_not_fitted, Hm.
  - rewrite Hd; [exact Hk|]. apply unfitted_not_fitted, Hm.
Qed.

Lemma sample_at_restrict (t : Tables) (c : Coord) :
  fitted_move c.2 → sample_at (restrict_tables t) c = sample_at t c.
Proof.
  intros Hc. unfold sample_at, total_at, restrict_tables. simpl.
  rewrite !count_restrict by exact Hc. reflexivity.
Qed.

Lemma elem_of_coords_restrict (t : Tables) (c : Coord) :
  fitted_move c.2 → c ∈ coords (restrict_tables t) ↔ c ∈ coords t.
Proof.
  intros Hc. rewrite !elem_of_coords, !elem_of_dom.
  unfold restrict_tables. simpl. rewrite !lookup_restrict by exact Hc.
  reflexivity.
Qed.

Lemma StronglySorted_filter {A} (R : relation A) (P : A → Prop)
    `{∀ x, Decision (P x)} (l : list A) :
  StronglySorted R l → StronglySorted R (filter P l).
Proof.
  induction 1 as [|x l Hl IH Hx]; [constructor|].
  rewrite filter_cons. destruct (decide (P x)); [|exact IH].
  constructor; [exact IH|].
  apply Forall_forall. intros y [_ Hy]%list_elem_of_filter.
  rewrite Forall_forall in Hx. apply Hx, Hy.
Qed.

(** The coordinates of one fitted move, in the order of [coords], depend on
    the tables at the fitted moves only. *)
Lemma coords_of_move (t1 t2 : Tables) (m : Z) :
  restrict_tables t1 = restrict_tables t2 → fitted_move m →
  filter (λ c : Coord, c.2 = m) (coords t1) =
  filter (λ c : Coord, c.2 = m) (coords t2).
Proof.
  intros Ht Hm. apply (StronglySorted_unique coord_le).
  - apply StronglySorted_filter, coords_sorted.
  - apply StronglySorted_filter, coords_sorted.
  - apply NoDup_Permutation; [apply NoDup_filter, coords_NoDup..|].
    intros c. rewrite !list_elem_of_filter.
    split; intros [Hc Hin]; (split; [exact Hc|]).
    + apply elem_of_coords_restrict; [rewrite Hc; exact Hm|].
      rewrite <- Ht. apply elem_of_coords_restrict; [rewrite Hc; exact Hm|].
      exact Hin.
    + apply elem_of_coords_restrict; [rewrite Hc; exact Hm|].
      rewrite Ht. apply elem_of_coords_restrict; [rewrite Hc; exact Hm|].
      exact Hin.
Qed.

Lemma bucket_fmap (t : Tables) (cs : list Coord) (m : Z) :
  bucket (sample_at t <$> cs) m =
  sample_at t <$> filter (λ c : Coord, c.2 = m) cs.
Proof.
  rewrite bucket_one_move. induction cs as [|c cs IH]; [reflexivity|].
  rewrite fmap_cons, !filter_cons. simpl.
  destruct (decide (c.2 = m)); rewrite IH; reflexivity.
Qed.

Lemma bucket_of_move (t1 t2 : Tables) (m : Z) :
  restrict_tables t1 = restrict_tables t2 → fitted_move m →
  bucket (sample_at t1 <$> coords t1) m = bucket (sample_at t2 <$> coords t2) m.
Proof.
  intros Ht Hm. rewrite !bucket_fmap, (coords_of_move t1 t2 m Ht Hm).
  apply Forall_fmap_ext, Forall_forall.
  intros c [Hc _]%list_elem_of_filter.
  rewrite <- (sample_at_restrict t1), <- (sample_at_restrict t2), Ht
    by (rewrite Hc; exact Hm).
  reflexivity.
Qed.

Lemma rate_computer_Ok (NP : Z) (inpdict : gmap RawKey N) :
  is_Ok (rate_computer NP inpdict) →
  rate_computer NP inpdict =
  Ok (sample_at (aggregate NP inpdict) <$> coords (aggregate NP inpdict)).
Proof.
  intros [samples Hs]. unfold rate_computer in *. cbv zeta in *.
  destruct (rate_loop_cases (aggregate NP inpdict)
    (coords (aggregate NP inpdict))) as [[_ E]|[_ E]]; [exact E|congruence].
Qed.

(** C10, as the specification states it, fails: adding to a statistics file
    an observation at move 0 whose count is 0 leaves a coordinate with total
    0 in the tables, and the run that went through to its end now stops in
    the rate loop. *)
Lemma zero_count_at_move_0_matters :
  let inp2 := <[("W", 0, 0, 0) := 0%N]> demo_stats in
  differ_only_at_unfitted demo_stats inp2 ∧
  fitted_moves (run 328 curve_fit_initial curve_fit_poly3_demo demo_stats)
    = Ok [3; 4; 5; 6; 7] ∧
  run 328 curve_fit_initial curve_fit_poly3_demo inp2 = Raise ZeroDivisionError.
Proof.
  cbv zeta. split; [|split].
  - intros k Hk. rewrite lookup_insert_ne; [reflexivity|].
    intros <-. vm_compute in Hk. discriminate Hk.
  - vm_compute. reflexivity.
  - vm_compute. reflexivity.
Qed.

(** C10, amended. Observations at the moves 0, 1, 2 and 120 pass the test
    of line 47 (when their score is within the bound) and lie in no bucket
    of the per-move loop.  For two inputs that differ only in such
    observations, and on neither of which the rate loop raises (no
    coordinate has a zero total, as when all counts are at least 1), the run
    has the same outcome: the same fitted moves and parameters, the same two
    coefficient sets and the same normalisation values, or the same
    exception of [curve_fit]. *)
Theorem unfitted_moves_do_not_matter (NP : Z)
    (curve_fit_winmodel : list Qc → list Qc → R * R → option (R * R))
    (curve_fit_poly3 : list Z → list R → option Coeffs)
    (inp1 inp2 : gmap RawKey N) :
  (∀ move score, unfitted_move move = true → Z.abs score ≤ 400 →
     excluded move score = false ∧ move ∉ bucket_starts) ∧
  (differ_only_at_unfitted inp1 inp2 →
   is_Ok (rate_computer NP inp1) → is_Ok (rate_computer NP inp2) →
   run NP curve_fit_winmodel curve_fit_poly3 inp1 =
   run NP curve_fit_winmodel curve_fit_poly3 inp2).
Proof.
  split.
  - intros move score Hu Hs. unfold unfitted_move in Hu.
    apply bool_decide_eq_true in Hu.
    rewrite !elem_of_cons, elem_of_nil in Hu.
    rewrite excluded_false_iff, elem_of_bucket_starts. lia.
  - intros Hd H1 H2. unfold run.
    rewrite (rate_computer_Ok NP inp1 H1), (rate_computer_Ok NP inp2 H2).
    simpl. unfold per_move_fit.
    rewrite (fit_loop_ext NP curve_fit_winmodel
      (sample_at (aggregate NP inp1) <$> coords (aggregate NP inp1))
      (sample_at (aggregate NP inp2) <$> coords (aggregate NP inp2)));
      [reflexivity|].
    intros m Hm%elem_of_bucket_starts.
    apply bucket_of_move; [apply differ_restrict, Hd|exact Hm].
Qed.

Lemma unfitted_moves_do_not_matter_witness :
  run 328 curve_fit_initial curve_fit_poly3_demo demo_stats =
  run 328 curve_fit_initial curve_fit_poly3_demo
    (<[("L", 120, 0, 7) := 5%N]> demo_stats).
Proof.
  apply (unfitted_moves_do_not_matter 328 curve_fit_initial curve_fit_poly3_demo
    demo_stats (<[("L", 120, 0, 7) := 5%N]> demo_stats)).
  - intros k Hk. rewrite lookup_insert_ne; [reflexivity|].
    intros <-. vm_compute in Hk. discriminate Hk.
  - eexists. apply demo_rates.
  - eexists. unfold rate_computer. cbv zeta. apply rate_loop_Ok.
    apply (bool_decide_unpack _). vm_compute. exact I.
Defined.

(** * Further properties of the script *)

(** ** What the tables hold *)

Local Ltac split_contribution :=
  repeat split;
  repeat match goal with
  | |- context [decide ?P] => destruct (decide P)
  end;
  unfold adds_to, kept_as, coord_of in *; simpl in *;
  try lia; try (subst; lia); exfalso; intuition congruence.

Lemma count_step (NP : Z) (k : RawKey) (v : N) (t : Tables) (c : Coord) :
  count (win (aggregate_step NP k v t)) c =
    (count (win t) c + if decide (adds_to NP "W" c k) then v else 0)%N ∧
  count (draw (aggregate_step NP k v t)) c =
    (count (draw t) c + if decide (adds_to NP "D" c k) then v else 0)%N ∧
  count (loss (aggregate_step NP k v t)) c =
    (count (loss t) c + if decide (adds_to NP "L" c k) then v else 0)%N.
Proof.
  destruct k as [[[r m] a] s], t as [w d l].
  unfold aggregate_step.
  destruct (excluded m s) eqn:Hex; [split_contribution|].
  destruct (String.eqb_spec r "W") as [->|HW];
    [cbn [win draw loss]; rewrite count_counter_add; split_contribution|].
  destruct (String.eqb_spec r "D") as [->|HD];
    [cbn [win draw loss]; rewrite count_counter_add; split_contribution|].
  destruct (String.eqb_spec r "L") as [->|HL];
    [cbn [win draw loss]; rewrite count_counter_add; split_contribution|].
  split_contribution.
Qed.

Lemma sum_values_filter_insert {K} `{Countable K} (P : K → Prop)
    `{∀ k, Decision (P k)} (k : K) (v : N) (m : gmap K N) :
  m !! k = None →
  sum_values (filter (λ kv, P kv.1) (<[k:=v]> m)) =
  ((if decide (P k) then v else 0) + sum_values (filter (λ kv, P kv.1) m))%N.
Proof.
  intros Hk. destruct (decide (P k)) as [Hp|Hp].
  - rewrite map_filter_insert_True by exact Hp.
    apply sum_values_insert. rewrite map_lookup_filter_None. auto.
  - rewrite map_filter_insert_False by exact Hp.
    rewrite delete_id by exact Hk. lia.
Qed.

(** X2. Each count of a table is the sum of the counts of the observations
    that pass line 47, have the outcome of the table and are filed under the
    coordinate: observations that differ only in material add up. *)
Theorem table_counts (NP : Z) (inpdict : gmap RawKey N) (c : Coord) :
  let t := aggregate NP inpdict in
  count (win t) c = sum_values (filter (λ kv, adds_to NP "W" c kv.1) inpdict) ∧
  count (draw t) c = sum_values (filter (λ kv, adds_to NP "D" c kv.1) inpdict) ∧
  count (loss t) c = sum_values (filter (λ kv, adds_to NP "L" c kv.1) inpdict).
Proof.
  cbv zeta. unfold aggregate.
  apply (map_fold_weak_ind (λ t m,
    count (win t) c = sum_values (filter (λ kv : RawKey * N, adds_to NP "W" c kv.1) m) ∧
    count (draw t) c = sum_values (filter (λ kv : RawKey * N, adds_to NP "D" c kv.1) m) ∧
    count (loss t) c = sum_values (filter (λ kv : RawKey * N, adds_to NP "L" c kv.1) m))).
  - rewrite !map_filter_empty. repeat split.
  - intros k v m t Hk (IHw & IHd & IHl).
    destruct (count_step NP k v t c) as (Hw & Hd & Hl).
    rewrite Hw, Hd, Hl, IHw, IHd, IHl.
    rewrite !(sum_values_filter_insert (λ k, adds_to NP _ c k)) by exact Hk.
    repeat split; lia.
Qed.

Lemma sum_values_step (NP : Z) (k : RawKey) (v : N) (t : Tables) :
  sum_values (win (aggregate_step NP k v t)) =
    (sum_values (win t) + if decide (kept_as "W" k) then v else 0)%N ∧
  sum_values (draw (aggregate_step NP k v t)) =
    (sum_values (draw t) + if decide (kept_as "D" k) then v else 0)%N ∧
  sum_values (loss (aggregate_step NP k v t)) =
    (sum_values (loss t) + if decide (kept_as "L" k) then v else 0)%N.
Proof.
  destruct k as [[[r m] a] s], t as [w d l].
  unfold aggregate_step.
  destruct (excluded m s) eqn:Hex; [split_contribution|].
  destruct (String.eqb_spec r "W") as [->|HW];
    [cbn [win draw loss]; rewrite sum_values_counter_add; split_contribution|].
  destruct (String.eqb_spec r "D") as [->|HD];
    [cbn [win draw loss]; rewrite sum_values_counter_add; split_contribution|].
  destruct (String.eqb_spec r "L") as [->|HL];
    [cbn [win draw loss]; rewrite sum_values_counter_add; split_contribution|].
  split_contribution.
Qed.

(** X3. The three totals printed by line 61 are the summed counts of the
    observations inside the bounds of line 47 with outcome W, D and L. *)
Theorem retained_per_outcome (NP : Z) (inpdict : gmap RawKey N) :
  let t := aggregate NP inpdict in
  sum_values (win t) = sum_values (filter (λ kv, kept_as "W" kv.1) inpdict) ∧
  sum_values (draw t) = sum_values (filter (λ kv, kept_as "D" kv.1) inpdict) ∧
  sum_values (loss t) = sum_values (filter (λ kv, kept_as "L" kv.1) inpdict).
Proof.
  cbv zeta. unfold aggregate.
  apply (map_fold_weak_ind (λ t m,
    sum_values (win t) = sum_values (filter (λ kv : RawKey * N, kept_as "W" kv.1) m) ∧
    sum_values (draw t) = sum_values (filter (λ kv : RawKey * N, kept_as "D" kv.1) m) ∧
    sum_values (loss t) = sum_values (filter (λ kv : RawKey * N, kept_as "L" kv.1) m))).
  - rewrite !map_filter_empty. repeat split.
  - intros k v m t Hk (IHw & IHd & IHl).
    destruct (sum_values_step NP k v t) as (Hw & Hd & Hl).
    rewrite Hw, Hd, Hl, IHw, IHd, IHl.
    rewrite !(sum_values_filter_insert (λ k, kept_as _ k)) by exact Hk.
    repeat split; lia.
Qed.

(** X1. Scanning the entries of the dictionary in insertion order, as the
    script does, gives the tables of [aggregate], whatever that order is. *)
Theorem aggregate_any_order (NP : Z) (entries : list (RawKey * N)) :
  NoDup entries.*1 →
  aggregate_in_order NP entries = aggregate NP (list_to_map entries).
Proof.
  unfold aggregate_in_order.
  induction entries as [|[k v] entries IH] using rev_ind; intros Hnd.
  - reflexivity.
  - rewrite fmap_app, NoDup_app in Hnd. destruct Hnd as (Hnd & Hk & _).
    assert (k ∉ entries.*1) as Hfresh.
    { intros Hin. apply (Hk k Hin). simpl. left. }
    rewrite foldl_app. simpl. rewrite IH by exact Hnd.
    rewrite list_to_map_snoc by exact Hfresh.
    rewrite aggregate_insert by (apply not_elem_of_list_to_map_1, Hfresh).
    reflexivity.
Qed.

Lemma aggregate_any_order_witness :
  aggregate_in_order 328
    [(("L", 11, 5, -50), 2%N); (("W", 10, 0, 50), 3%N); (("D", 10, 5, 50), 1%N)]
  = aggregate 328 (list_to_map
    [(("L", 11, 5, -50), 2%N); (("W", 10, 0, 50), 3%N); (("D", 10, 5, 50), 1%N)]).
Proof.
  apply aggregate_any_order.
  apply (bool_decide_unpack _). vm_compute. exact I.
Defined.

(** ** The coordinates *)

Lemma coord_set_step (NP : Z) (k : RawKey) (v : N) (t : Tables) :
  coord_set (aggregate_step NP k v t) =
  (if counted k then {[coord_of NP k]} else ∅) ∪ coord_set t.
Proof.
  destruct k as [[[r m] a] s], t as [w d l].
  unfold aggregate_step, counted, is_outcome, coord_set, coord_of.
  destruct (excluded m s); simpl; [rewrite union_empty_l_L; reflexivity|].
  destruct (String.eqb r "W"); simpl.
  { rewrite dom_counter_add. apply set_eq. intros x.
    rewrite !elem_of_union. tauto. }
  destruct (String.eqb r "D"); simpl.
  { rewrite dom_counter_add. apply set_eq. intros x.
    rewrite !elem_of_union. tauto. }
  destruct (String.eqb r "L"); simpl.
  { rewrite dom_counter_add. apply set_eq. intros x.
    rewrite !elem_of_union. tauto. }
  rewrite union_empty_l_L. reflexivity.
Qed.

Lemma coord_set_spec (NP : Z) (inpdict : gmap RawKey N) (c : Coord) :
  c ∈ coord_set (aggregate NP inpdict) ↔
  ∃ k v, inpdict !! k = Some v ∧ counted k = true ∧ coord_of NP k = c.
Proof.
  unfold aggregate.
  apply (map_fold_weak_ind (λ t m,
    c ∈ coord_set t ↔
    ∃ k v, m !! k = Some v ∧ counted k = true ∧ coord_of NP k = c)).
  - unfold coord_set. simpl. rewrite !dom_empty_L, !union_empty_l_L.
    split; [intros []%not_elem_of_empty|].
    intros (k & v & Hk & _). rewrite lookup_empty in Hk. discriminate.
  - intros k v m t Hk IH. rewrite coord_set_step, elem_of_union, IH.
    split.
    + intros [Hc|(k' & v' & Hk' & Hc)].
      * destruct (counted k) eqn:Hcount; [|apply not_elem_of_empty in Hc as []].
        apply elem_of_singleton in Hc. exists k, v.
        rewrite lookup_insert_eq. auto.
      * exists k', v'. rewrite lookup_insert_ne by congruence. auto.
    + intros (k' & v' & Hk' & Hcount & Hc).
      apply lookup_insert_Some in Hk' as [[<- <-]|[Hne Hk']].
      * left. rewrite Hcount. apply elem_of_singleton. congruence.
      * right. eauto.
Qed.

(** X4. The coordinates of the rate loop are exactly the rescaled
    (score, move) pairs of the observations with outcome W, D or L inside the
    bounds of line 47; so every coordinate has its move between 0 and 120. *)
Theorem coords_are_kept_observations (NP : Z) (inpdict : gmap RawKey N)
    (c : Coord) :
  (c ∈ coords (aggregate NP inpdict) ↔
   ∃ result move material score v,
     inpdict !! (result, move, material, score) = Some v ∧
     is_outcome result = true ∧
     (Z.abs score ≤ 400 ∧ 0 ≤ move ≤ 120) ∧
     c = (rescale NP score, move)) ∧
  (c ∈ coords (aggregate NP inpdict) → 0 ≤ c.2 ≤ 120).
Proof.
  assert (c ∈ coords (aggregate NP inpdict) ↔
   ∃ result move material score v,
     inpdict !! (result, move, material, score) = Some v ∧
     is_outcome result = true ∧
     (Z.abs score ≤ 400 ∧ 0 ≤ move ≤ 120) ∧
     c = (rescale NP score, move)) as Hiff.
  { rewrite coords_Permutation, elem_of_elements, coord_set_spec. split.
    - intros ([[[r m] a] s] & v & Hk & Hc & <-).
      apply counted_true_iff in Hc as [Hb Ho].
      exists r, m, a, s, v. auto.
    - intros (r & m & a & s & v & Hk & Ho & Hb & ->).
      exists (r, m, a, s), v. repeat split; [exact Hk|].
      apply counted_true_iff. auto. }
  split; [exact Hiff|].
  intros (r & m & a & s & v & _ & _ & [_ Hm] & ->)%Hiff. exact Hm.
Qed.

(** X5. [coords] is strictly increasing in the order of Python tuples: a
    coordinate at an earlier position is below every later one, and no
    coordinate occurs twice. *)
Theorem coords_strictly_increasing (t : Tables) (i j : nat) (c1 c2 : Coord) :
  (i < j)%nat → coords t !! i = Some c1 → coords t !! j = Some c2 →
  coord_le c1 c2 ∧ c1 ≠ c2.
Proof.
  intros Hij H1 H2. split.
  - pose proof (coords_sorted t) as Hs.
    rewrite <- (take_drop j (coords t)) in Hs.
    apply (StronglySorted_app_1_elem_of _ _ _ _ _ Hs).
    + apply list_elem_of_lookup. exists i.
      rewrite lookup_take_lt by exact Hij. exact H1.
    + apply list_elem_of_lookup. exists 0%nat.
      rewrite lookup_drop, Nat.add_0_r. exact H2.
  - intros <-. pose proof (NoDup_lookup _ _ _ _ (coords_NoDup t) H1 H2). lia.
Qed.

Lemma coords_strictly_increasing_witness :
  coord_le (rescale 328 (-50), 11) (rescale 328 50, 10) ∧
  (rescale 328 (-50), 11) ≠ (rescale 328 50, 10).
Proof.
  apply (coords_strictly_increasing (aggregate 328 small_stats) 0 1).
  - lia.
  - apply (bool_decide_unpack _). vm_compute. exact I.
  - apply (bool_decide_unpack _). vm_compute. exact I.
Defined.

(** X6. For a non-zero [NormalizeToPawnValue] the rescaling of line 51 is
    one-to-one: observations with different raw scores are filed under
    different coordinates. *)
Theorem rescale_injective (NP s1 s2 : Z) :
  NP ≠ 0 → rescale NP s1 = rescale NP s2 → s1 = s2.
Proof.
  intros HNP E. unfold rescale in E.
  assert (Qc_of_Z 100 ≠ 0%Qc) as H100.
  { rewrite <- Z2Qc_inj_0. intros H%Z2Qc_inj. discriminate H. }
  assert (Qc_of_Z (s1 * NP) = Qc_of_Z (s2 * NP)) as E'.
  { rewrite <- (Qcmult_div_r (Qc_of_Z (s1 * NP)) (Qc_of_Z 100)) by exact H100.
    rewrite E. apply Qcmult_div_r, H100. }
  apply Z2Qc_inj in E'. apply (Z.mul_cancel_r _ _ NP HNP), E'.
Qed.

Lemma rescale_injective_witness : (50 : Z) = 50.
Proof.
  apply (rescale_injective 328 50 50); [discriminate|reflexivity].
Defined.

(** ** The output of the rate loop *)

(** X7. When the rate loop ends normally, its lists [xs] and [ys] are the
    sorted coordinates, position by position, and the three rates at every
    position lie between 0 and 1 and add up to exactly 1. *)
Theorem rate_computer_output (NP : Z) (inpdict : gmap RawKey N)
    (samples : list RateSample) :
  rate_computer NP inpdict = Ok samples →
  (λ s, (rs_score s, rs_move s)) <$> samples = coords (aggregate NP inpdict) ∧
  Forall (λ s, (rs_win s + rs_draw s + rs_loss s = 1)%Qc ∧
               (0 ≤ rs_win s)%Qc ∧ (rs_win s ≤ 1)%Qc ∧
               (0 ≤ rs_draw s)%Qc ∧ (rs_draw s ≤ 1)%Qc ∧
               (0 ≤ rs_loss s)%Qc ∧ (rs_loss s ≤ 1)%Qc) samples.
Proof.
  unfold rate_computer. cbv zeta.
  set (t := aggregate NP inpdict). intros Hs.
  destruct (rate_loop_cases t (coords t)) as [[Hpos E]|[_ E]];
    [|congruence].
  rewrite E in Hs. injection Hs as <-. split.
  - rewrite <- list_fmap_compose.
    rewrite <- (list_fmap_id (coords t)) at 2.
    apply list_fmap_ext. intros _ [x y] _. reflexivity.
  - apply Forall_fmap. eapply Forall_impl; [exact Hpos|].
    intros c Hc. unfold sample_at. simpl. unfold total_at in *.
    split; [apply rates_add_up, Hc|].
    repeat split; apply rate_bounds; (lia || exact Hc).
Qed.

Lemma rate_computer_output_witness :
  (λ s, (rs_score s, rs_move s)) <$>
    (sample_at (aggregate 328 demo_stats) <$> coords (aggregate 328 demo_stats))
  = coords (aggregate 328 demo_stats).
Proof.
  apply (rate_computer_output 328 demo_stats _ demo_rates).
Defined.

(** ** The outcome of the per-move loop *)

Section FitOutcome.

Variable NormalizeToPawnValue : Z.
Variable curve_fit_winmodel : list Qc → list Qc → R * R → option (R * R).

Local Abbreviation fit_of m samples :=
  (curve_fit_winmodel (rs_score <$> bucket samples m)
     (rs_win <$> bucket samples m) (p0 NormalizeToPawnValue)).

Lemma fit_loop_success (samples : list RateSample) (ms : list Z) (st : FitState) :
  (∀ m, m ∈ ms → (10 ≤ length (bucket samples m))%nat →
        is_Some (fit_of m samples)) →
  is_Ok (fit_loop NormalizeToPawnValue curve_fit_winmodel samples ms st).
Proof.
  revert st. induction ms as [|m ms IH]; intros st Hall; simpl.
  - exists st. reflexivity.
  - destruct (le_lt_dec (length (bucket samples m)) 9) as [Hn|Hn].
    + rewrite fit_step_skip by exact Hn. simpl.
      apply IH. intros m' Hm'. apply Hall. right. exact Hm'.
    + rewrite fit_step_attempt by lia. unfold fit_attempt.
      destruct (Hall m) as [popt ->]; [left|lia|]. simpl.
      apply IH. intros m' Hm'. apply Hall. right. exact Hm'.
Qed.

Lemma fit_loop_consistent (samples : list RateSample) (ms : list Z)
    (st st' : FitState) :
  fit_consistent NormalizeToPawnValue curve_fit_winmodel samples st →
  fit_loop NormalizeToPawnValue curve_fit_winmodel samples ms st = Ok st' →
  fit_consistent NormalizeToPawnValue curve_fit_winmodel samples st'.
Proof.
  revert st. induction ms as [|m ms IH]; intros st Hst; simpl.
  - intros [= <-]. exact Hst.
  - destruct (le_lt_dec (length (bucket samples m)) 9) as [Hn|Hn].
    + rewrite fit_step_skip by exact Hn. simpl. apply IH, Hst.
    + rewrite fit_step_attempt by lia. unfold fit_attempt.
      destruct (fit_of m samples) as [popt|] eqn:Hfit; simpl; [|discriminate].
      apply IH. destruct Hst as (Ha & Hb & Hall).
      unfold fit_consistent. simpl. rewrite !length_app. simpl.
      split; [lia|]. split; [lia|].
      intros i m' Hi.
      destruct (decide (i < length (model_ms st))%nat) as [Hlt|Hge].
      * rewrite lookup_app_l in Hi by exact Hlt.
        destruct (Hall i m' Hi) as (popt' & Hp & Hia & Hib).
        exists popt'. rewrite !lookup_app_l by lia. auto.
      * rewrite lookup_app_r in Hi by lia.
        apply list_lookup_singleton_Some in Hi as [Hi <-].
        exists popt. rewrite !lookup_app_r by lia.
        replace (i - length (model_as st))%nat with 0%nat by lia.
        replace (i - length (model_bs st))%nat with 0%nat by lia.
        auto.
Qed.

End FitOutcome.

(** X8. The per-move loop ends normally exactly when [curve_fit] returns
    parameters for every bucket with at least 10 samples; otherwise it ends
    with the exception of [curve_fit], never with another one. *)
Theorem per_move_fit_outcome (NP : Z)
    (curve_fit_winmodel : list Qc → list Qc → R * R → option (R * R))
    (samples : list RateSample) :
  (is_Ok (per_move_fit NP curve_fit_winmodel samples) ↔
   ∀ m, m ∈ bucket_starts → (10 ≤ length (bucket samples m))%nat →
     is_Some (curve_fit_winmodel (rs_score <$> bucket samples m)
                (rs_win <$> bucket samples m) (p0 NP))) ∧
  (is_Ok (per_move_fit NP curve_fit_winmodel samples) ∨
   per_move_fit NP curve_fit_winmodel samples = Raise CurveFitError).
Proof.
  assert (is_Ok (per_move_fit NP curve_fit_winmodel samples) ↔
   ∀ m, m ∈ bucket_starts → (10 ≤ length (bucket samples m))%nat →
     is_Some (curve_fit_winmodel (rs_score <$> bucket samples m)
                (rs_win <$> bucket samples m) (p0 NP))) as Hiff.
  { split.
    - intros [st Hst] m Hm Hn.
      destruct (curve_fit_winmodel _ _ _) as [popt|] eqn:Hfit; [eauto|].
      unfold per_move_fit in Hst.
      rewrite (fit_loop_failure NP curve_fit_winmodel samples bucket_starts m)
        in Hst by assumption.
      discriminate Hst.
    - apply fit_loop_success. }
  split; [exact Hiff|].
  destruct (decide (Forall (λ m, (10 ≤ length (bucket samples m))%nat →
     is_Some (curve_fit_winmodel (rs_score <$> bucket samples m)
                (rs_win <$> bucket samples m) (p0 NP))) bucket_starts))
    as [Hall|Hex].
  - left. apply Hiff. rewrite Forall_forall in Hall. exact Hall.
  - right. apply not_Forall_Exists in Hex; [|intros m; apply _].
    apply Exists_exists in Hex as (m & Hm & Hnot).
    destruct (decide (10 ≤ length (bucket samples m))%nat) as [Hn|Hn];
      [|exfalso; apply Hnot; intros; lia].
    destruct (curve_fit_winmodel (rs_score <$> bucket samples m)
      (rs_win <$> bucket samples m) (p0 NP)) as [popt|] eqn:Hfit;
      [exfalso; apply Hnot; eauto|].
    apply (fit_loop_failure NP curve_fit_winmodel samples bucket_starts m);
      assumption.
Qed.

(** X9. In the lists of a completed per-move loop, [model_as] and
    [model_bs] are as long as [model_ms], and position by position they hold
    the two parameters that [curve_fit] returned for the bucket of the move
    at that position. *)
Theorem per_move_fit_lists (NP : Z)
    (curve_fit_winmodel : list Qc → list Qc → R * R → option (R * R))
    (samples : list RateSample) (st : FitState) :
  per_move_fit NP curve_fit_winmodel samples = Ok st →
  fit_consistent NP curve_fit_winmodel samples st.
Proof.
  apply fit_loop_consistent. repeat split. intros i m Hi.
  destruct i; discriminate Hi.
Qed.

Lemma per_move_fit_lists_witness :
  fit_consistent 328 curve_fit_initial (won_samples 5 10)
    (mkFit [5] [IZR 328] [(IZR 328 / 6)%R]).
Proof.
  apply (per_move_fit_lists 328 curve_fit_initial (won_samples 5 10)).
  vm_compute. reflexivity.
Defined.

(** X10. When no move from 3 to 119 has 10 coordinates, as for an empty
    statistics file, no fit is attempted whatever the optimiser is, and the
    script calls both trend fits on empty lists. *)
Theorem run_without_buckets (NP : Z)
    (curve_fit_winmodel : list Qc → list Qc → R * R → option (R * R))
    (curve_fit_poly3 : list Z → list R → option Coeffs)
    (inpdict : gmap RawKey N) (samples : list RateSample) :
  rate_computer NP inpdict = Ok samples →
  (∀ m, m ∈ bucket_starts → (length (bucket samples m) ≤ 9)%nat) →
  per_move_fit NP curve_fit_winmodel samples = Ok empty_fit ∧
  run NP curve_fit_winmodel curve_fit_poly3 inpdict =
    match curve_fit_poly3 [] [] with
    | Some popt => Ok (mkOutput empty_fit popt popt (normalization popt popt))
    | None => Raise CurveFitError
    end.
Proof.
  intros Hrates Hsmall.
  assert (∀ ms st, (∀ m, m ∈ ms → m ∈ bucket_starts) →
    fit_loop NP curve_fit_winmodel samples ms st = Ok st) as Hloop.
  { induction ms as [|m ms IH]; intros st Hsub; [reflexivity|]. simpl.
    rewrite fit_step_skip by (apply Hsmall, Hsub; left). simpl.
    apply IH. intros m' Hm'. apply Hsub. right. exact Hm'. }
  assert (per_move_fit NP curve_fit_winmodel samples = Ok empty_fit) as Hfit.
  { apply Hloop. auto. }
  split; [exact Hfit|].
  unfold run. rewrite Hrates. simpl. rewrite Hfit. simpl.
  destruct (curve_fit_poly3 [] []); reflexivity.
Qed.

Lemma run_without_buckets_witness :
  per_move_fit 328 curve_fit_never [] = Ok empty_fit ∧
  run 328 curve_fit_never curve_fit_poly3_demo ∅ =
    Ok (mkOutput empty_fit (0, 0, 0, 1)%R (0, 0, 0, 1)%R
          (normalization (0, 0, 0, 1)%R (0, 0, 0, 1)%R)).
Proof.
  apply (run_without_buckets 328 curve_fit_never curve_fit_poly3_demo ∅ []).
  - reflexivity.
  - intros m _. simpl. lia.
Defined.

(** ** The win model and the predictor *)

Section WinModel.
Local Open Scope R_scope.

Lemma inv_one_plus_exp_lt (u v : R) :
  u < v → 1 / (1 + exp v) < 1 / (1 + exp u).
Proof.
  intros Huv. pose proof (exp_pos u). pose proof (exp_increasing u v Huv).
  unfold Rdiv. rewrite !Rmult_1_l. apply Rinv_lt_contravar; [nra|lra].
Qed.

Lemma winmodel_lt (x1 x2 a b : R) :
  0 < b → x1 < x2 → winmodel x1 a b < winmodel x2 a b.
Proof.
  intros Hb Hx. unfold winmodel. apply inv_one_plus_exp_lt.
  unfold Rdiv. apply Rmult_lt_compat_r; [apply Rinv_0_lt_compat, Hb|lra].
Qed.

Lemma winmodel_le (x1 x2 a b : R) :
  0 < b → x1 <= x2 → winmodel x1 a b <= winmodel x2 a b.
Proof.
  intros Hb [Hx| ->]; [left; apply winmodel_lt; assumption|right; reflexivity].
Qed.

Lemma winmodel_reflect (x a b : R) :
  winmodel x a b + winmodel (2 * a - x) a b = 1.
Proof.
  unfold winmodel.
  replace (- (2 * a - x - a) / b) with (- (- (x - a) / b))
    by (unfold Rdiv; ring).
  rewrite exp_Ropp. pose proof (exp_pos (- (x - a) / b)) as HE.
  set (E := exp (- (x - a) / b)) in *. field. split; lra.
Qed.

Lemma py_int_le (x y : R) : 0 <= x → x <= y → (py_int x ≤ py_int y)%Z.
Proof.
  intros Hx Hxy. unfold py_int.
  destruct (Rle_dec 0 x); [|contradiction].
  destruct (Rle_dec 0 y); [|lra]. apply Zfloor_le, Hxy.
Qed.

Lemma py_int_IZR (z : Z) : py_int (IZR z) = z.
Proof.
  unfold py_int. destruct (Rle_dec 0 (IZR z)); [apply ZfloorZ|].
  unfold Zceil. rewrite <- opp_IZR, ZfloorZ. lia.
Qed.

(** X11. The win probability is strictly increasing in the score when the
    scale [b] is positive, and strictly decreasing when [b] is negative. *)
Theorem winmodel_monotone (x1 x2 a b : R) :
  x1 < x2 →
  (0 < b → winmodel x1 a b < winmodel x2 a b) ∧
  (b < 0 → winmodel x2 a b < winmodel x1 a b).
Proof.
  intros Hx. split; intros Hb.
  - apply winmodel_lt; assumption.
  - unfold winmodel. apply inv_one_plus_exp_lt.
    unfold Rdiv.
    assert (0 < - / b) as Hinv.
    { rewrite <- Rinv_opp. apply Rinv_0_lt_compat. lra. }
    nra.
Qed.

Lemma winmodel_monotone_witness :
  winmodel 0 328 55 < winmodel 100 328 55.
Proof.
  apply (winmodel_monotone 0 100 328 55); lra.
Defined.

(** X12. The parameter [a] is the score of even chances: the win
    probability at score [a] is one half, and the probabilities at two
    scores mirrored around [a] add up to 1. *)
Theorem winmodel_midpoint (x a b : R) :
  b ≠ 0 →
  winmodel a a b = 1 / 2 ∧
  winmodel x a b + winmodel (2 * a - x) a b = 1.
Proof.
  intros _. split; [|apply winmodel_reflect].
  unfold winmodel. replace (- (a - a) / b) with 0 by (unfold Rdiv; ring).
  rewrite exp_0. lra.
Qed.

Lemma winmodel_midpoint_witness :
  winmodel 328 328 55 = 1 / 2 ∧
  winmodel 0 328 55 + winmodel (2 * 328 - 0) 328 55 = 1.
Proof.
  apply (winmodel_midpoint 0 328 55). lra.
Defined.

(** X13. Negating the score swaps the win and the loss value of [wdl] and
    keeps the draw value. *)
Theorem wdl_negate (moveTarget : Z) (score : R) (move : Z)
    (popt_as popt_bs : Coeffs) :
  let '(w, d, l) := wdl moveTarget score move popt_as popt_bs in
  wdl moveTarget (- score) move popt_as popt_bs = (l, d, w).
Proof.
  unfold wdl. cbv zeta. rewrite Ropp_involutive.
  apply pair_equal_spec. split; [|reflexivity].
  apply pair_equal_spec. split; [reflexivity|lia].
Qed.

(** X14. The win and loss values of [wdl] lie between 0 and 1000, so the
    model win fraction lies between 0 and 1; when the trends give
    [a(move) >= 0] and [b(move) > 0] the draw value lies between 0 and 1000
    as well. *)
Theorem wdl_bounds (moveTarget : Z) (score : R) (move : Z)
    (popt_as popt_bs : Coeffs) :
  let a := poly3 moveTarget (IZR move) popt_as in
  let b := poly3 moveTarget (IZR move) popt_bs in
  let '(w, d, l) := wdl moveTarget score move popt_as popt_bs in
  ((0 ≤ w ≤ 1000)%Z ∧ (0 ≤ l ≤ 1000)%Z ∧
   0 <= model_win moveTarget popt_as popt_bs score move <= 1) ∧
  (0 <= a → 0 < b →
   (0 ≤ d ≤ 1000)%Z ∧
   0 <= model_draw moveTarget popt_as popt_bs score move <= 1).
Proof.
  cbv zeta. unfold model_win, model_draw, wdl. cbv zeta. simpl.
  set (a := poly3 moveTarget (IZR move) popt_as).
  set (b := poly3 moveTarget (IZR move) popt_bs).
  pose proof (winmodel_pos score a b) as Hw0.
  pose proof (winmodel_lt_1 score a b) as Hw1.
  pose proof (winmodel_pos (- score) a b) as Hl0.
  pose proof (winmodel_lt_1 (- score) a b) as Hl1.
  pose proof (py_int_nonneg (1000 * winmodel score a b) ltac:(lra)) as [Hwl Hwu].
  pose proof (py_int_nonneg (1000 * winmodel (- score) a b) ltac:(lra)) as [Hll Hlu].
  set (w := py_int (1000 * winmodel score a b)) in *.
  set (l := py_int (1000 * winmodel (- score) a b)) in *.
  assert (0 ≤ w ≤ 1000)%Z as Hw.
  { assert (-1 < w)%Z by (apply lt_IZR; lra).
    assert (w ≤ 1000)%Z by (apply le_IZR; lra). lia. }
  assert (0 ≤ l ≤ 1000)%Z as Hl.
  { assert (-1 < l)%Z by (apply lt_IZR; lra).
    assert (l ≤ 1000)%Z by (apply le_IZR; lra). lia. }
  split.
  - split; [exact Hw|]. split; [exact Hl|].
    destruct Hw as [Hw Hw']. apply IZR_le in Hw, Hw'. lra.
  - intros Ha Hb.
    assert (winmodel score a b + winmodel (- score) a b <= 1) as Hsum.
    { pose proof (winmodel_reflect score a b) as Hr.
      pose proof (winmodel_le (- score) (2 * a - score) a b Hb ltac:(lra)).
      lra. }
    assert (0 ≤ 1000 - w - l ≤ 1000)%Z as Hd.
    { split; [|lia].
      assert (-1 < 1000 - w - l)%Z; [|lia].
      apply lt_IZR. rewrite !minus_IZR. lra. }
    split; [exact Hd|].
    destruct Hd as [Hd Hd']. apply IZR_le in Hd, Hd'. lra.
Qed.

Lemma wdl_bounds_witness :
  let '(w, d, l) := wdl 32 16 32 (0, 0, 0, 0) (0, 0, 0, 1) in
  (0 ≤ d ≤ 1000)%Z ∧
  0 <= model_draw 32 (0, 0, 0, 0) (0, 0, 0, 1) 16 32 <= 1.
Proof.
  pose proof (wdl_bounds 32 16 32 (0, 0, 0, 0) (0, 0, 0, 1)) as H.
  cbv zeta in H. rewrite !poly3_constant in H.
  destruct (wdl 32 16 32 (0, 0, 0, 0) (0, 0, 0, 1)) as [[w d] l].
  apply H; lra.
Defined.

(** X15. For a positive [b(move)] a higher score never lowers the win value
    of [wdl] and never raises its loss value. *)
Theorem wdl_monotone (moveTarget : Z) (s1 s2 : R) (move : Z)
    (popt_as popt_bs : Coeffs) :
  0 < poly3 moveTarget (IZR move) popt_bs → s1 <= s2 →
  let '(w1, _, l1) := wdl moveTarget s1 move popt_as popt_bs in
  let '(w2, _, l2) := wdl moveTarget s2 move popt_as popt_bs in
  (w1 ≤ w2)%Z ∧ (l2 ≤ l1)%Z.
Proof.
  intros Hb Hs. unfold wdl. cbv zeta.
  set (a := poly3 moveTarget (IZR move) popt_as).
  set (b := poly3 moveTarget (IZR move) popt_bs) in *.
  split; apply py_int_le.
  - pose proof (winmodel_pos s1 a b). lra.
  - pose proof (winmodel_le s1 s2 a b Hb Hs). lra.
  - pose proof (winmodel_pos (- s2) a b). lra.
  - pose proof (winmodel_le (- s2) (- s1) a b Hb ltac:(lra)). lra.
Qed.

Lemma wdl_monotone_witness :
  let '(w1, _, l1) := wdl 32 0 32 (0, 0, 0, 0) (0, 0, 0, 1) in
  let '(w2, _, l2) := wdl 32 16 32 (0, 0, 0, 0) (0, 0, 0, 1) in
  (w1 ≤ w2)%Z ∧ (l2 ≤ l1)%Z.
Proof.
  apply (wdl_monotone 32 0 16 32 (0, 0, 0, 0) (0, 0, 0, 1)).
  - rewrite poly3_constant. lra.
  - lra.
Defined.

(** X16. For a non-zero target move, the printed constant and spread are
    the integer parts of the two trends at the target move, the normalised
    spread is the quotient of the two trends there, and the printed draw rate
    is what the win model leaves for the draw at score 0: one minus the win
    probabilities of the scores 0 and -0. *)
Theorem normalization_at_target (moveTarget : Z) (popt_as popt_bs : Coeffs) :
  moveTarget ≠ 0%Z →
  let a := poly3 moveTarget (IZR moveTarget) popt_as in
  let b := poly3 moveTarget (IZR moveTarget) popt_bs in
  let r := normalization popt_as popt_bs in
  constant r = py_int a ∧ spread r = py_int b ∧
  normalized_spread r = b / a ∧
  draw_rate_at_zero r = 1 - winmodel 0 a b - winmodel (- 0) a b.
Proof.
  intros Hm. cbv zeta. unfold normalization. cbv zeta.
  cbn [constant spread normalized_spread draw_rate_at_zero].
  rewrite <- !(fsum_poly3 moveTarget) by exact Hm.
  repeat split. unfold winmodel.
  replace (- (0 - fsum popt_as) / fsum popt_bs)
    with (fsum popt_as / fsum popt_bs) by (unfold Rdiv; ring).
  replace (- (- 0 - fsum popt_as) / fsum popt_bs)
    with (fsum popt_as / fsum popt_bs) by (unfold Rdiv; ring).
  unfold Rdiv. lra.
Qed.

Lemma normalization_at_target_witness :
  constant (normalization (0, 0, 0, 1311 / 4) (0, 0, 0, 273 / 5)) =
  py_int (poly3 32 (IZR 32) (0, 0, 0, 1311 / 4)).
Proof.
  apply (normalization_at_target 32 (0, 0, 0, 1311 / 4) (0, 0, 0, 273 / 5)).
  discriminate.
Defined.

End WinModel.

(** ** Plot ranges and the pawn axis *)

(** X17. The bound of a score axis is the least multiple of 100 strictly
    above [k] pawns in internal units; so for a positive
    [NormalizeToPawnValue] the win plots reach from below -1 pawn to above 3
    pawns and the draw plots beyond 2 pawns on both sides. *)
Theorem axis_bound_spec (k NP : Z) :
  (∃ q, axis_bound k NP = q * 100) ∧
  k * NP < axis_bound k NP ≤ k * NP + 100 ∧
  (0 < NP →
   (wins_xlim NP).1 < - NP ∧ 3 * NP < (wins_xlim NP).2 ∧
   (draws_xlim NP).1 < - (2 * NP) ∧ 2 * NP < (draws_xlim NP).2).
Proof.
  unfold wins_xlim, draws_xlim, axis_bound. simpl.
  split; [eexists; reflexivity|].
  pose proof (Z.div_mod (k * NP) 100 ltac:(lia)) as Hk.
  pose proof (Z.mod_pos_bound (k * NP) 100 ltac:(lia)) as Hk'.
  split; [lia|]. intros HNP.
  pose proof (Z.div_mod (1 * NP) 100 ltac:(lia)) as H1.
  pose proof (Z.mod_pos_bound (1 * NP) 100 ltac:(lia)) as H1'.
  pose proof (Z.div_mod (2 * NP) 100 ltac:(lia)) as H2.
  pose proof (Z.mod_pos_bound (2 * NP) 100 ltac:(lia)) as H2'.
  pose proof (Z.div_mod (3 * NP) 100 ltac:(lia)) as H3.
  pose proof (Z.mod_pos_bound (3 * NP) 100 ltac:(lia)) as H3'.
  lia.
Qed.

Lemma axis_bound_spec_witness :
  (wins_xlim 328).1 < - 328 ∧ 3 * 328 < (wins_xlim 328).2 ∧
  (draws_xlim 328).1 < - (2 * 328) ∧ 2 * 328 < (draws_xlim 328).2.
Proof.
  apply (axis_bound_spec 3 328). lia.
Defined.

Section PawnAxis.
Local Open Scope R_scope.

Lemma elem_of_new_tick_locations (NP : Z) (xlim : R * R) (tick : R) :
  tick ∈ new_tick_locations NP xlim ↔
  ∃ x : Z, tick = IZR x / 2 * IZR NP ∧
    (2 * Zceil (xlim.1 / IZR NP) ≤ x ≤ 2 * Zfloor (xlim.2 / IZR NP))%Z.
Proof.
  unfold new_tick_locations, py_range, tickmin, tickmax, np_ceil, np_floor.
  rewrite !py_int_IZR, list_elem_of_fmap.
  split; intros (x & Hx & Hr); exists x; (split; [exact Hx|]).
  - apply elem_of_seqZ in Hr. lia.
  - apply elem_of_seqZ. lia.
Qed.

(** X18. For a positive [NormalizeToPawnValue], every tick of the pawn axis
    lies within the limits of the score axis, and every whole number of
    pawns within the limits has a tick. *)
Theorem ticks_within_limits (NP : Z) (xlim : R * R) :
  (0 < NP)%Z →
  (∀ tick, tick ∈ new_tick_locations NP xlim → xlim.1 <= tick <= xlim.2) ∧
  (∀ j : Z, xlim.1 <= IZR j * IZR NP <= xlim.2 →
            IZR j * IZR NP ∈ new_tick_locations NP xlim).
Proof.
  intros HNP. apply IZR_lt in HNP.
  pose proof (Zceil_bound (xlim.1 / IZR NP)) as [_ Hc].
  pose proof (Zfloor_bound (xlim.2 / IZR NP)) as [Hf _].
  assert (xlim.1 = xlim.1 / IZR NP * IZR NP) as E1 by (field; lra).
  assert (xlim.2 = xlim.2 / IZR NP * IZR NP) as E2 by (field; lra).
  split.
  - intros tick (x & -> & Hlo & Hhi)%elem_of_new_tick_locations.
    apply IZR_le in Hlo, Hhi. rewrite mult_IZR in Hlo, Hhi.
    split.
    + rewrite E1. apply Rmult_le_compat_r; lra.
    + rewrite E2. apply Rmult_le_compat_r; lra.
  - intros j [Hlo Hhi]. apply elem_of_new_tick_locations.
    exists (2 * j)%Z. split; [rewrite mult_IZR; field|].
    assert (xlim.1 / IZR NP <= IZR j) as Hlo'.
    { apply (Rmult_le_reg_r (IZR NP)); lra. }
    assert (IZR j <= xlim.2 / IZR NP) as Hhi'.
    { apply (Rmult_le_reg_r (IZR NP)); lra. }
    assert (Zceil (xlim.1 / IZR NP) ≤ j)%Z.
    { unfold Zceil.
      pose proof (Zfloor_lub (- j) (- (xlim.1 / IZR NP))) as Hl.
      rewrite opp_IZR in Hl. specialize (Hl ltac:(lra)). lia. }
    assert (j ≤ Zfloor (xlim.2 / IZR NP))%Z by (apply Zfloor_lub, Hhi').
    lia.
Qed.

Lemma ticks_within_limits_witness :
  IZR 1 * IZR 328 ∈ new_tick_locations 328 (-400, 1000).
Proof.
  destruct (ticks_within_limits 328 (-400, 1000)) as [_ Hwhole]; [lia|].
  apply Hwhole. simpl. lra.
Defined.

Lemma tick_label (NP x : Z) :
  NP ≠ 0%Z →
  tick_function NP [IZR x / 2 * IZR NP] =
  [if Z.even x then Some (Z.div x 2) else None].
Proof.
  intros HNP. apply not_0_IZR in HNP. unfold tick_function. simpl.
  replace (IZR x / 2 * IZR NP / IZR NP) with (IZR x / 2) by (field; exact HNP).
  f_equal. unfold mod_1.
  destruct (Z.even x) eqn:Hev.
  - apply Z.even_spec in Hev as [j ->].
    replace (Z.div (2 * j) 2) with j by (rewrite Z.mul_comm, Z.div_mul; lia).
    rewrite mult_IZR.
    replace (2 * IZR j / 2) with (IZR j) by field.
    rewrite ZfloorZ.
    destruct (Rlt_dec (IZR j - IZR j) (1 / 10)); [|lra].
    destruct (Rlt_dec (IZR j - IZR j) (/ 2)); [reflexivity|lra].
  - assert (Z.odd x = true) as Hodd by (rewrite <- Z.negb_even, Hev; reflexivity).
    apply Z.odd_spec in Hodd as [j ->].
    rewrite plus_IZR, mult_IZR.
    assert (Zfloor ((2 * IZR j + 1) / 2) = j) as ->.
    { apply Zfloor_eq. lra. }
    destruct (Rlt_dec ((2 * IZR j + 1) / 2 - IZR j) (1 / 10)); [lra|reflexivity].
Qed.

(** X19. For a non-zero [NormalizeToPawnValue], the ticks at a whole number
    of pawns are labelled with that number and the ticks halfway between
    have an empty label. *)
Theorem tick_labels (NP : Z) (xlim : R * R) :
  NP ≠ 0%Z →
  tick_function NP (new_tick_locations NP xlim) =
  (λ x, if Z.even x then Some (Z.div x 2) else None) <$>
    py_range (tickmin NP xlim) (tickmax NP xlim).
Proof.
  intros HNP. unfold new_tick_locations.
  induction (py_range (tickmin NP xlim) (tickmax NP xlim)) as [|x xs IH];
    [reflexivity|].
  rewrite !fmap_cons. unfold tick_function in *. rewrite fmap_cons, IH.
  f_equal. pose proof (tick_label NP x HNP) as Hx.
  unfold tick_function in Hx. simpl in Hx. injection Hx as Hx. exact Hx.
Qed.

Lemma tick_labels_witness :
  tick_function 328 (new_tick_locations 328 (-400, 1000)) =
  (λ x, if Z.even x then Some (Z.div x 2) else None) <$>
    py_range (tickmin 328 (-400, 1000)) (tickmax 328 (-400, 1000)).
Proof.
  apply (tick_labels 328 (-400, 1000)). discriminate.
Defined.

End PawnAxis.

(** ** Instances at the sample inputs *)

Lemma coords_are_kept_observations_witness : 0 ≤ 10 ≤ 120.
Proof.
  apply (coords_are_kept_observations 328 small_stats (rescale 328 50, 10)).
  apply (bool_decide_unpack _). vm_compute. exact I.
Defined.

Lemma per_move_fit_outcome_witness :
  is_Ok (per_move_fit 328 curve_fit_initial (won_samples 5 10)).
Proof.
  apply (per_move_fit_outcome 328 curve_fit_initial (won_samples 5 10)).
  intros m _ _. unfold curve_fit_initial. eauto.
Defined.
